(** * getpcaps: display the capabilities of the queried processes

    A shallow embedding of [progs/getpcaps.c] together with the
    capability-set data model and text codec it relies on.

    Part I embeds [main] of [progs/getpcaps.c].  The libcap entry points
    it calls ([cap_init], [capgetp], [cap_to_text]) and [strerror] are
    parameters of the embedding; [atoi] and the [%d] conversion of
    [fprintf] follow the C library.

    Part II models the capability set, the name table and the text codec. *)

From Stdlib Require Import ZArith NArith Arith Bool List String Ascii Lia.
From Stdlib Require Import DecimalString DecimalPos Sorting.Sorted.
Import ListNotations.

Local Open Scope string_scope.

(* ================================================================== *)
(** * Part I: [progs/getpcaps.c]                                        *)
(* ================================================================== *)

(** ** C library pieces used by [main] *)

Definition nl : string := String (ascii_of_nat 10) EmptyString.

(** [isspace] in the C locale. *)
Definition isspace (c : ascii) : bool :=
  let n := nat_of_ascii c in
  (n =? 32)%nat || ((9 <=? n)%nat && (n <=? 13)%nat).

Definition digit_of (c : ascii) : option Z :=
  let n := nat_of_ascii c in
  if ((48 <=? n)%nat && (n <=? 57)%nat)%bool
  then Some (Z.of_nat n - 48)%Z else None.

Fixpoint skip_space (l : list ascii) : list ascii :=
  match l with
  | c :: r => if isspace c then skip_space r else l
  | [] => []
  end.

Fixpoint digits (acc : Z) (l : list ascii) : Z :=
  match l with
  | c :: r =>
      match digit_of c with
      | Some d => digits (10 * acc + d)%Z r
      | None => acc
      end
  | [] => acc
  end.

(** The number a text opens with: leading white space, an optional
    sign, then the longest run of decimal digits; 0 when there is none. *)
Definition decimal (s : string) : Z :=
  match skip_space (list_ascii_of_string s) with
  | "-"%char :: r => (- digits 0 r)%Z
  | "+"%char :: r => digits 0 r
  | l => digits 0 l
  end.

Definition INT_MIN : Z := -2147483648.
Definition INT_MAX : Z := 2147483647.
Definition LONG_MIN : Z := -9223372036854775808.
Definition LONG_MAX : Z := 9223372036854775807.

(** [strtol (s, NULL, 10)]: the number, held to the range of [long]. *)
Definition strtol (s : string) : Z :=
  Z.max LONG_MIN (Z.min LONG_MAX (decimal s)).

(** The conversion of a [long] to [int]: the low 32 bits, as a signed
    value. *)
Definition int_of_long (n : Z) : Z :=
  ((n + 2147483648) mod 4294967296 - 2147483648)%Z.

(** [atoi].  The result is an [int], as [pid] is in [main].  For a
    number outside the range of [int] the C standard leaves the result
    open; the model follows [(int) strtol (s, NULL, 10)], which is what
    [atoi] is in the C libraries this program is built with, on a target
    where [long] has 64 bits and [int] 32. *)
Definition atoi (s : string) : Z := int_of_long (strtol s).

(** The [%d] conversion. *)
Definition fmt_d (n : Z) : string := NilZero.string_of_int (Z.to_int n).

(** Shapes of an argument, as [atoi] sees them. *)

Definition is_digit (c : ascii) : bool :=
  match digit_of c with Some _ => true | None => false end.

Definition is_sign (c : ascii) : bool :=
  Ascii.eqb c "-"%char || Ascii.eqb c "+"%char.

Definition starts_with_digit (l : list ascii) : bool :=
  match l with
  | c :: _ => is_digit c
  | [] => false
  end.

(** After white space and an optional sign, the argument shows a digit. *)
Definition has_number (arg : string) : bool :=
  match skip_space (list_ascii_of_string arg) with
  | c :: r => if is_sign c then starts_with_digit r else is_digit c
  | [] => false
  end.

(** Text that cannot continue a number nor start one: empty, or opening
    with a character that is no digit, no white space and no sign. *)
Definition no_number_start (tail : string) : bool :=
  match list_ascii_of_string tail with
  | c :: _ => negb (is_digit c) && negb (isspace c) && negb (is_sign c)
  | [] => true
  end.

Definition first_char (text : string) : option ascii :=
  match text with
  | String c _ => Some c
  | EmptyString => None
  end.

(** The text is a complete line. *)
Definition newline_terminated (text : string) : Prop :=
  exists line, text = line ++ nl.

(** ** Observable behaviour *)

Inductive stream := Stdout | Stderr.

Definition stream_eqb (a b : stream) : bool :=
  match a, b with
  | Stdout, Stdout | Stderr, Stderr => true
  | _, _ => false
  end.

Section Getpcaps.

(** What a [cap_t] points to: the contents of one capability set. *)
Variable cap_struct : Type.

(** The events of a run, in program order: text written to a stream,
    and the calls into libcap with the arguments that matter.  A
    [Call_capgetp] carries the contents of the set [cap_d] points to
    at the moment of the call. *)
Inductive event :=
| Fprintf (s : stream) (text : string)
| Call_cap_init
| Call_capgetp (pid : Z) (cap_d : cap_struct)
| Call_cap_to_text (cap_d : cap_struct).

(** [cap_init ()]: a pointer to a blank set ([Some] of its contents) or
    NULL ([None]); takes and returns [errno]. *)
Variable cap_init : Z -> option cap_struct * Z.

(** [capgetp (pid, cap_d)]: from the pid, the contents of [*cap_d] and
    [errno] to the return value, the contents left in [*cap_d] and
    [errno]. *)
Variable capgetp : Z -> cap_struct -> Z -> Z * cap_struct * Z.

(** [cap_to_text (cap_d, &length)]; the length is not used by [main]. *)
Variable cap_to_text : cap_struct -> string.

Variable strerror : Z -> string.

Definition usage_text : string :=
  "usage: getcaps <pid> [<pid> ...]" ++ nl ++ nl ++
  "  This program displays the capabilities on the queried process(es)." ++ nl ++
  "  The capabilities are displayed in the cap_from_text(3) format." ++ nl ++ nl ++
  "[Copyright (c) 1997-8 Andrew G. Morgan  <morgan@kernel.org>]" ++ nl.

Definition blank_failed_text (errno : Z) : string :=
  "Failed to make a blank capability set" ++ nl ++
  " (" ++ strerror errno ++ ")" ++ nl.

Definition query_failed_text (pid errno : Z) : string :=
  "Failed to get cap's for proccess " ++ fmt_d pid ++ ":" ++
  " (" ++ strerror errno ++ ")" ++ nl.

Definition capabilities_text (arg result : string) : string :=
  "Capabilities for `" ++ arg ++ "': " ++ result ++ nl.

(** What one turn of the [for] loop does: either the process exits, or
    the loop goes on with the set and [errno] it leaves. *)
Inductive turn :=
| Exit (status : Z) (evs : list event)
| Next (cap_d : option cap_struct) (errno : Z) (evs : list event).

(** The body of the [for] loop, for the argument [arg = argv[0]]. *)
Definition body (arg : string) (cap_d : option cap_struct) (errno : Z) : turn :=
  match cap_d with
  | None => Exit 1 [Fprintf Stderr (blank_failed_text errno)]
  | Some c =>
      let pid := atoi arg in
      let '(ret, c', errno') := capgetp pid c errno in
      if (ret =? 0)%Z
      then
        let result := cap_to_text c' in
        Next (Some c') errno'
             [Call_capgetp pid c; Call_cap_to_text c';
              Fprintf Stderr (capabilities_text arg result)]
      else
        Next (Some c') errno'
             [Call_capgetp pid c;
              Fprintf Stderr (query_failed_text pid errno')]
  end.

(** [for ( ++argv; --argc > 0; ++argv )], over the arguments left. *)
Fixpoint loop (args : list string) (cap_d : option cap_struct) (errno : Z)
  : Z * list event :=
  match args with
  | [] => (0%Z, [])
  | arg :: rest =>
      match body arg cap_d errno with
      | Exit status evs => (status, evs)
      | Next cap_d' errno' evs =>
          let (status, evs') := loop rest cap_d' errno' in
          (status, (evs ++ evs')%list)
      end
  end.

(** [usage ()]. *)
Definition usage : Z * list event := (1%Z, [Fprintf Stderr usage_text]).

(** [main (argc, argv)] with [argc = length argv] and [errno] 0 at
    start: the exit status and the events of the run. *)
Definition main (argv : list string) : Z * list event :=
  if (List.length argv <? 2)%nat then usage
  else
    let (cap_d, errno) := cap_init 0%Z in
    let (status, evs) := loop (tl argv) cap_d errno in
    (status, Call_cap_init :: evs).

(** ** The capability queries of a run *)

(** One [capgetp] call: the argument it was made for, what it was
    handed and what it gave back. *)
Record query_record := mkQuery {
  q_arg : string;
  q_pid : Z;
  q_before : cap_struct;
  q_ret : Z;
  q_after : cap_struct;
  q_errno : Z
}.

(** The calls the loop makes from a set with contents [c], in order. *)
Fixpoint query_log (args : list string) (c : cap_struct) (errno : Z)
  : list query_record :=
  match args with
  | [] => []
  | arg :: rest =>
      let '(ret, c', errno') := capgetp (atoi arg) c errno in
      mkQuery arg (atoi arg) c ret c' errno' :: query_log rest c' errno'
  end.

(** The line a query is answered with. *)
Definition report (q : query_record) : string :=
  if (q_ret q =? 0)%Z
  then capabilities_text (q_arg q) (cap_to_text (q_after q))
  else query_failed_text (q_pid q) (q_errno q).

Definition events_of (q : query_record) : list event :=
  if (q_ret q =? 0)%Z
  then [Call_capgetp (q_pid q) (q_before q); Call_cap_to_text (q_after q);
        Fprintf Stderr (report q)]
  else [Call_capgetp (q_pid q) (q_before q); Fprintf Stderr (report q)].

(** ** [capgetp] as a window on the kernel *)

(** [capgetp] answers from [query], the kernel's view of each pid (an
    [errno] value, or the capability set of the process): a successful
    call leaves that set in [*cap_d] whatever was there before, a failed
    one returns non-zero with [errno] set. *)
Definition answers_from (query : Z -> Z + cap_struct) : Prop :=
  forall pid c errno,
    match query pid with
    | inr s => exists errno', capgetp pid c errno = (0%Z, s, errno')
    | inl err => exists ret c', ret <> 0%Z /\ capgetp pid c errno = (ret, c', err)
    end.

(** The line the kernel's view lets one expect for an argument. *)
Definition line_for (query : Z -> Z + cap_struct) (arg : string) : string :=
  match query (atoi arg) with
  | inr s => capabilities_text arg (cap_to_text s)
  | inl err => query_failed_text (atoi arg) err
  end.

(** ** Projections of a run *)

Definition exit_status (r : Z * list event) : Z := fst r.

Definition written (s : stream) (evs : list event) : list string :=
  flat_map (fun e => match e with
                     | Fprintf s' t => if stream_eqb s s' then [t] else []
                     | _ => []
                     end) evs.

(** The pids handed to [capgetp], in call order. *)
Definition queried_pids (evs : list event) : list Z :=
  flat_map (fun e => match e with Call_capgetp pid _ => [pid] | _ => [] end) evs.

(** The contents of the set each [capgetp] call was handed. *)
Definition queried_sets (evs : list event) : list cap_struct :=
  flat_map (fun e => match e with Call_capgetp _ c => [c] | _ => [] end) evs.

(** The sets handed to [cap_to_text], in call order. *)
Definition rendered_sets (evs : list event) : list cap_struct :=
  flat_map (fun e => match e with Call_cap_to_text c => [c] | _ => [] end) evs.

Definition cap_init_calls (evs : list event) : nat :=
  List.length (filter (fun e => match e with Call_cap_init => true | _ => false end) evs).

End Getpcaps.

Arguments Fprintf {cap_struct}.
Arguments Call_cap_init {cap_struct}.
Arguments Call_capgetp {cap_struct}.
Arguments Call_cap_to_text {cap_struct}.
Arguments Exit {cap_struct}.
Arguments Next {cap_struct}.
Arguments written {cap_struct}.
Arguments queried_pids {cap_struct}.
Arguments queried_sets {cap_struct}.
Arguments cap_init_calls {cap_struct}.
Arguments rendered_sets {cap_struct}.
Arguments exit_status {cap_struct}.
Arguments q_arg {cap_struct}.
Arguments q_pid {cap_struct}.
Arguments q_before {cap_struct}.
Arguments q_ret {cap_struct}.
Arguments q_after {cap_struct}.
Arguments q_errno {cap_struct}.

(* ================================================================== *)
(** * Part II: capability sets, the name table and the text codec       *)
(* ================================================================== *)

(** Modelled from the spec: the error taxonomy of the core (section 7);
    libcap itself, absent from the sources, reports through [errno]. *)
Inductive Error :=
| IndexOutOfRange
| UnknownCapabilityIndex
| UnknownCapabilityName
| MalformedCapabilityText
| ProcessNotFound
| PermissionDenied
| QueryFailed (cause : Z).

Inductive result (A : Type) :=
| Ok (a : A)
| Err (e : Error).

Arguments Ok {A}.
Arguments Err {A}.

Definition bind {A B} (r : result A) (k : A -> result B) : result B :=
  match r with
  | Ok a => k a
  | Err e => Err e
  end.

Notation "x <- r ;; k" := (bind r (fun x => k))
  (at level 61, r at next level, right associativity).

Fixpoint foldM {A B} (f : A -> B -> result B) (l : list A) (b : B) : result B :=
  match l with
  | [] => Ok b
  | a :: r => b' <- f a b ;; foldM f r b'
  end.

(** ** CapabilitySet *)

Inductive FlagKind := Effective | Permitted | Inheritable.

(** Modelled from the spec: the CapabilitySet value type, standing for
    what a [cap_t] of libcap points to (libcap's sources are absent):
    three parallel bit-vectors, bit [idx] of a vector telling whether
    capability [idx] is in it. *)
Record CapabilitySet := mkCapabilitySet {
  effective : N;
  permitted : N;
  inheritable : N
}.

Definition vec (which : FlagKind) (s : CapabilitySet) : N :=
  match which with
  | Effective => effective s
  | Permitted => permitted s
  | Inheritable => inheritable s
  end.

Definition with_vec (which : FlagKind) (v : N) (s : CapabilitySet) : CapabilitySet :=
  match which with
  | Effective => mkCapabilitySet v (permitted s) (inheritable s)
  | Permitted => mkCapabilitySet (effective s) v (inheritable s)
  | Inheritable => mkCapabilitySet (effective s) (permitted s) v
  end.

Definition bit (which : FlagKind) (idx : nat) (s : CapabilitySet) : bool :=
  N.testbit (vec which s) (N.of_nat idx).

(** Modelled from the spec: [empty ()], the all-clear set. *)
Definition empty : CapabilitySet := mkCapabilitySet 0 0 0.

(** Modelled from the spec: a flag signature of the encoder (absent
    with libcap), the membership of one capability in (effective,
    inheritable, permitted), in the order of the letters [e], [i], [p]. *)
Definition signature : Type := bool * bool * bool.

Definition no_flags : signature := (false, false, false).

Definition sig_eqb (a b : signature) : bool :=
  let '(ae, ai, ap) := a in
  let '(be, bi, bp) := b in
  Bool.eqb ae be && Bool.eqb ai bi && Bool.eqb ap bp.

Definition signature_of (s : CapabilitySet) (idx : nat) : signature :=
  (bit Effective idx s, bit Inheritable idx s, bit Permitted idx s).

Definition has_flag (which : FlagKind) (sg : signature) : bool :=
  let '(e, i, p) := sg in
  match which with
  | Effective => e
  | Inheritable => i
  | Permitted => p
  end.

(** ** Text helpers *)

Definition ascii_eqb (a b : ascii) : bool := Ascii.eqb a b.

(** [join c ws]: the words of [ws] with one [c] between neighbours. *)
Fixpoint join (c : ascii) (ws : list (list ascii)) : list ascii :=
  match ws with
  | [] => []
  | [w] => w
  | w :: rest => (w ++ c :: join c rest)%list
  end.

(** [split_on c l]: the pieces of [l] between occurrences of [c]. *)
Fixpoint split_on (c : ascii) (l : list ascii) : list (list ascii) :=
  match l with
  | [] => [[]]
  | x :: r =>
      if ascii_eqb x c then [] :: split_on c r
      else match split_on c r with
           | w :: ws => (x :: w) :: ws
           | [] => [[x]]
           end
  end.

(** Modelled from the spec: the flag suffix of a group (encoder of the
    absent libcap), the letters present in the fixed order [e], [i], [p]. *)
Definition flags_text (sg : signature) : list ascii :=
  let '(e, i, p) := sg in
  ((if e then ["e"%char] else []) ++
   (if i then ["i"%char] else []) ++
   (if p then ["p"%char] else []))%list.

Definition eat (c : ascii) (l : list ascii) : bool * list ascii :=
  match l with
  | x :: r => if ascii_eqb x c then (true, r) else (false, l)
  | [] => (false, [])
  end.

(** Modelled from the spec: reading a flag suffix (decoder of the absent
    libcap) as the encoder writes it: an optional [e], then an optional
    [i], then an optional [p], at least one of them. *)
Definition parse_flags (fl : list ascii) : option signature :=
  let (e, l1) := eat "e"%char fl in
  let (i, l2) := eat "i"%char l1 in
  let (p, l3) := eat "p"%char l2 in
  match l3 with
  | [] => if e || i || p then Some (e, i, p) else None
  | _ :: _ => None
  end.

(** [subseq a b]: [a] is [b] with some of its characters left out. *)
Fixpoint subseq (a b : list ascii) : bool :=
  match a, b with
  | [], _ => true
  | _ :: _, [] => false
  | x :: a', y :: b' => if ascii_eqb x y then subseq a' b' else subseq a b'
  end.

(** First occurrences of the elements of [l], in the order of [l]. *)
Fixpoint first_occurrences (l : list signature) : list signature :=
  match l with
  | [] => []
  | x :: r => x :: filter (fun y => negb (sig_eqb y x)) (first_occurrences r)
  end.

(** What a group of the text stands for: [raise sg idx s] is [s] with
    capability [idx] added to the vectors of the signature [sg]. *)
Definition raise_if (b : bool) (which : FlagKind) (idx : nat) (s : CapabilitySet)
  : CapabilitySet :=
  if b then with_vec which (N.setbit (vec which s) (N.of_nat idx)) s else s.

Definition raise (sg : signature) (idx : nat) (s : CapabilitySet) : CapabilitySet :=
  let '(e, i, p) := sg in
  raise_if p Permitted idx (raise_if i Inheritable idx (raise_if e Effective idx s)).

Definition raise_group (g : signature * list nat) (s : CapabilitySet) : CapabilitySet :=
  fold_left (fun s' idx => raise (fst g) idx s') (snd g) s.

Definition raise_groups (gs : list (signature * list nat)) (s : CapabilitySet)
  : CapabilitySet :=
  fold_left (fun s' g => raise_group g s') gs s.

Section Core.

(** The build-time number of capability bits. *)
Variable MAX_CAP : nat.

(** The CapabilityNameTable: (index, name) pairs. *)
Variable table : list (nat * string).

(** Invariant of a CapabilitySet: no index outside [0, MAX_CAP) is set
    in any of the three vectors. *)
Definition valid (s : CapabilitySet) : Prop :=
  forall which, (vec which s < 2 ^ N.of_nat MAX_CAP)%N.

(** Modelled from the spec: [isSet] of CapabilitySet (libcap's accessors
    are absent from the sources): the outcome, and the set as the
    operation leaves it. *)
Definition isSet (which : FlagKind) (idx : nat) (s : CapabilitySet)
  : result bool * CapabilitySet :=
  if (idx <? MAX_CAP)%nat then (Ok (bit which idx s), s)
  else (Err IndexOutOfRange, s).

(** Modelled from the spec: [set] of CapabilitySet (absent with
    libcap), which mutates one bit under the same range contract. *)
Definition set (which : FlagKind) (idx : nat) (s : CapabilitySet)
  : result unit * CapabilitySet :=
  if (idx <? MAX_CAP)%nat
  then (Ok tt, with_vec which (N.setbit (vec which s) (N.of_nat idx)) s)
  else (Err IndexOutOfRange, s).

(** Modelled from the spec: [clear] of CapabilitySet (absent with
    libcap), which mutates one bit under the same range contract. *)
Definition clear (which : FlagKind) (idx : nat) (s : CapabilitySet)
  : result unit * CapabilitySet :=
  if (idx <? MAX_CAP)%nat
  then (Ok tt, with_vec which (N.clearbit (vec which s) (N.of_nat idx)) s)
  else (Err IndexOutOfRange, s).

(** Modelled from the spec: [indicesPresent] of CapabilitySet (absent
    with libcap), the indices of one vector in ascending order. *)
Definition indicesPresent (which : FlagKind) (s : CapabilitySet) : list nat :=
  filter (fun idx => bit which idx s) (seq 0 MAX_CAP).

(** Modelled from the spec: [nameOf] of the CapabilityNameTable (the
    name table of libcap is absent from the sources). *)
Definition nameOf (idx : nat) : result string :=
  match find (fun p => (fst p =? idx)%nat) table with
  | Some p => Ok (snd p)
  | None => Err UnknownCapabilityIndex
  end.

(** Modelled from the spec: [indexOf] of the CapabilityNameTable
    (absent with libcap), case-sensitive. *)
Definition indexOf (name : string) : result nat :=
  match find (fun p => String.eqb (snd p) name) table with
  | Some p => Ok (fst p)
  | None => Err UnknownCapabilityName
  end.

Definition named (idx : nat) : bool :=
  match nameOf idx with Ok _ => true | Err _ => false end.

Definition name_text (idx : nat) : list ascii :=
  match nameOf idx with
  | Ok n => list_ascii_of_string n
  | Err _ => []
  end.

(** ** TextCodec.encode *)

(** Modelled from the spec: the capabilities the encoder (absent with
    libcap) prints, ascending: those in at least one vector that have a
    name; unnamed bits are skipped. *)
Definition printed (s : CapabilitySet) : list nat :=
  filter (fun idx => named idx && negb (sig_eqb (signature_of s idx) no_flags))
         (seq 0 MAX_CAP).

(** Modelled from the spec: the groups of the encoder (absent with
    libcap), one per flag signature in use, a group holding the printed
    capabilities of that signature in ascending order; groups in the
    order of their lowest index. *)
Definition groups (s : CapabilitySet) : list (signature * list nat) :=
  map (fun sg => (sg, filter (fun idx => sig_eqb (signature_of s idx) sg) (printed s)))
      (first_occurrences (map (signature_of s) (printed s))).

(** Modelled from the spec: one group of the text (encoder of the absent
    libcap), [name1,name2,...=flags]. *)
Definition render_group (g : signature * list nat) : list ascii :=
  (join ","%char (map name_text (snd g)) ++ "="%char :: flags_text (fst g))%list.

(** Modelled from the spec: [encode] of TextCodec (the cap_to_text
    equivalent, whose source in libcap is absent), steps 1 to 5:
    groups by flag signature, names ascending and comma-joined, the
    flag letters after [=], groups joined by one space, and [=] alone
    when there is nothing to print. *)
Definition encode (s : CapabilitySet) : string :=
  string_of_list_ascii
    match groups s with
    | [] => ["="%char]
    | gs => join " "%char (map render_group gs)
    end.

(** ** TextCodec.decode *)

Definition commit (r : result unit * CapabilitySet) : result CapabilitySet :=
  match r with
  | (Ok _, s) => Ok s
  | (Err e, _) => Err e
  end.

Definition set_if (b : bool) (which : FlagKind) (idx : nat) (s : CapabilitySet)
  : result CapabilitySet :=
  if b then commit (set which idx s) else Ok s.

(** Modelled from the spec: what the decoder (absent with libcap) does
    for one name of a group: [set] in every vector of the signature. *)
Definition set_flags (sg : signature) (idx : nat) (s : CapabilitySet)
  : result CapabilitySet :=
  let '(e, i, p) := sg in
  s1 <- set_if e Effective idx s ;;
  s2 <- set_if i Inheritable idx s1 ;;
  set_if p Permitted idx s2.

(** Modelled from the spec: one name of a group (decoder of the absent
    libcap): an empty segment is malformed, an unknown name fails as
    [indexOf] does. *)
Definition decode_name (sg : signature) (name : list ascii) (s : CapabilitySet)
  : result CapabilitySet :=
  match name with
  | [] => Err MalformedCapabilityText
  | _ :: _ =>
      idx <- indexOf (string_of_list_ascii name) ;;
      set_flags sg idx s
  end.

(** Modelled from the spec: one group (decoder of the absent libcap):
    exactly one [=], names before it, a flag suffix after it. *)
Definition decode_group (g : list ascii) (s : CapabilitySet)
  : result CapabilitySet :=
  match split_on "="%char g with
  | [names; fl] =>
      match parse_flags fl with
      | Some sg => foldM (decode_name sg) (split_on ","%char names) s
      | None => Err MalformedCapabilityText
      end
  | _ => Err MalformedCapabilityText
  end.

(** Modelled from the spec: [decode] of TextCodec (the cap_from_text
    equivalent, whose source in libcap is absent): the empty marker
    [=], or groups [name(,name)*=flags] separated by single spaces. *)
Definition decode (text : string) : result CapabilitySet :=
  if String.eqb text "=" then Ok empty
  else foldM decode_group (split_on " "%char (list_ascii_of_string text)) empty.

(** The separators of the text form. *)
Definition separator (c : ascii) : bool :=
  ascii_eqb c " "%char || ascii_eqb c ","%char || ascii_eqb c "="%char.

Definition token (name : string) : bool :=
  match list_ascii_of_string name with
  | [] => false
  | l => forallb (fun c => negb (separator c)) l
  end.

Fixpoint distinct (names : list string) : bool :=
  match names with
  | [] => true
  | n :: r => negb (existsb (String.eqb n) r) && distinct r
  end.

(** Modelled from the spec: the invariants of the CapabilityNameTable
    (absent with libcap) the codec leans on: every name is a token (not
    empty, free of the separators of the text form) and no name occurs
    twice. *)
Definition table_ok : bool :=
  forallb (fun p => token (snd p)) table && distinct (map snd table).

(** A group as the encoder writes them: some flag, at least one
    capability, every capability in range and named. *)
Definition well_formed_group (g : signature * list nat) : Prop :=
  fst g <> no_flags /\ snd g <> [] /\
  forall idx, In idx (snd g) -> (idx < MAX_CAP)%nat /\ named idx = true.

(** ** ProcessCapabilityQuery as seen through [capgetp] *)

Definition ESRCH : Z := 3.
Definition EPERM : Z := 1.
Definition EINVAL : Z := 22.

Definition errno_of (e : Error) : Z :=
  match e with
  | ProcessNotFound => ESRCH
  | PermissionDenied => EPERM
  | QueryFailed cause => cause
  | _ => EINVAL
  end.

(** Modelled from the spec: [capgetp] as ProcessCapabilityQuery
    describes it (libcap's own [capgetp] is absent from the sources): on
    success the set is populated wholesale from the kernel's answer,
    on failure it is left alone and [errno] tells why. *)
Definition capgetp_of (query : Z -> result CapabilitySet)
           (pid : Z) (cap_d : CapabilitySet) (errno : Z)
  : Z * CapabilitySet * Z :=
  match query pid with
  | Ok s => (0%Z, s, errno)
  | Err e => ((-1)%Z, cap_d, errno_of e)
  end.

(** The kernel's view behind a [query]: the [errno] of a failure, or the
    set of the process. *)
Definition errno_or_set (query : Z -> result CapabilitySet) (pid : Z)
  : Z + CapabilitySet :=
  match query pid with
  | Ok s => inr s
  | Err e => inl (errno_of e)
  end.

End Core.

(** ** A small configuration to run the definitions on *)

Definition demo_MAX_CAP : nat := 6.

Definition demo_table : list (nat * string) :=
  [(0, "chown"); (1, "dac_override"); (2, "dac_read_search");
   (3, "fowner"); (4, "fsetid"); (5, "kill")]%nat.

(** The same universe with capability 1 left without a name. *)
Definition sparse_table : list (nat * string) :=
  [(0, "chown"); (2, "dac_read_search");
   (3, "fowner"); (4, "fsetid"); (5, "kill")]%nat.

(** chown effective and permitted, kill inheritable. *)
Definition demo_set : CapabilitySet := mkCapabilitySet 1 1 32.

(** chown, dac_override and fowner effective and permitted. *)
Definition demo_set2 : CapabilitySet := mkCapabilitySet 11 11 0.

(** Process 1 and process 3 exist, no other does. *)
Definition demo_query (pid : Z) : result CapabilitySet :=
  if (pid =? 1)%Z then Ok demo_set
  else if (pid =? 3)%Z then Ok demo_set2
  else Err ProcessNotFound.

Definition demo_errno_or_set (pid : Z) : Z + CapabilitySet :=
  match demo_query pid with
  | Ok s => inr s
  | Err e => inl (errno_of e)
  end.

Definition demo_strerror (errno : Z) : string :=
  if (errno =? 3)%Z then "No such process"
  else if (errno =? 1)%Z then "Operation not permitted"
  else if (errno =? 12)%Z then "Cannot allocate memory"
  else "Unknown error".

Definition demo_cap_init (errno : Z) : option CapabilitySet * Z :=
  (Some empty, errno).

Definition demo_main (argv : list string) : Z * list (event CapabilitySet) :=
  main CapabilitySet demo_cap_init (capgetp_of demo_query)
       (encode demo_MAX_CAP demo_table) demo_strerror argv.

(** A [cap_init] that finds no memory. *)
Definition failing_cap_init (errno : Z) : option CapabilitySet * Z :=
  (None, 12%Z).

Definition demo_main_no_set (argv : list string) : Z * list (event CapabilitySet) :=
  main CapabilitySet failing_cap_init (capgetp_of demo_query)
       (encode demo_MAX_CAP demo_table) demo_strerror argv.

(* ================================================================== *)
(** * Properties of [main]                                              *)
(* ================================================================== *)

Lemma written_app {T} (s : stream) (a b : list (event T)) :
  written s (a ++ b) = (written s a ++ written s b)%list.
Proof. apply flat_map_app. Qed.

Lemma queried_pids_app {T} (a b : list (event T)) :
  queried_pids (a ++ b) = (queried_pids a ++ queried_pids b)%list.
Proof. apply flat_map_app. Qed.

Lemma queried_sets_app {T} (a b : list (event T)) :
  queried_sets (a ++ b) = (queried_sets a ++ queried_sets b)%list.
Proof. apply flat_map_app. Qed.

Section GetpcapsFacts.

Variable cap_struct : Type.
Variable cap_init : Z -> option cap_struct * Z.
Variable capgetp : Z -> cap_struct -> Z -> Z * cap_struct * Z.
Variable cap_to_text : cap_struct -> string.
Variable strerror : Z -> string.

Local Abbreviation loop := (loop cap_struct capgetp cap_to_text strerror).
Local Abbreviation main := (main cap_struct cap_init capgetp cap_to_text strerror).
Local Abbreviation query_log := (query_log cap_struct capgetp).
Local Abbreviation report := (report cap_struct cap_to_text strerror).
Local Abbreviation events_of := (events_of cap_struct cap_to_text strerror).
Local Abbreviation query_record := (query_record cap_struct).

(** With a set at hand the loop never exits early: it makes one query
    per argument and returns 0. *)
Lemma loop_log (args : list string) :
  forall c errno,
    loop args (Some c) errno = (0%Z, flat_map events_of (query_log args c errno)).
Proof.
  induction args as [|arg rest IH]; intros c errno; simpl.
  - reflexivity.
  - destruct (capgetp (atoi arg) c errno) as [[ret c'] errno'] eqn:Hq.
    simpl. unfold events_of at 1, report. simpl.
    destruct (ret =? 0)%Z; rewrite IH; reflexivity.
Qed.

(** Without one it stops at its first turn. *)
Lemma loop_null (arg : string) (rest : list string) (errno : Z) :
  loop (arg :: rest) None errno
  = (1%Z, [Fprintf Stderr (blank_failed_text strerror errno)]).
Proof. reflexivity. Qed.

Lemma main_usage (argv : list string) :
  (List.length argv < 2)%nat ->
  main argv = (1%Z, [Fprintf Stderr usage_text]).
Proof.
  intros H. unfold main. apply Nat.ltb_lt in H. rewrite H. reflexivity.
Qed.

Lemma main_null (argv : list string) (errno : Z) :
  (2 <= List.length argv)%nat ->
  cap_init 0%Z = (None, errno) ->
  main argv = (1%Z, [Call_cap_init;
                     Fprintf Stderr (blank_failed_text strerror errno)]).
Proof.
  intros Hlen Hinit. unfold main.
  destruct (Nat.ltb_spec (List.length argv) 2) as [Hlt|_]; [lia|].
  rewrite Hinit.
  destruct argv as [|prog [|arg rest]]; simpl in Hlen; try lia.
  reflexivity.
Qed.

Lemma main_log (argv : list string) (c : cap_struct) (errno : Z) :
  (2 <= List.length argv)%nat ->
  cap_init 0%Z = (Some c, errno) ->
  main argv
  = (0%Z, Call_cap_init :: flat_map events_of (query_log (tl argv) c errno)).
Proof.
  intros Hlen Hinit. unfold main.
  destruct (Nat.ltb_spec (List.length argv) 2) as [Hlt|_]; [lia|].
  rewrite Hinit, loop_log. reflexivity.
Qed.

Lemma written_stderr_log (l : list query_record) :
  written Stderr (flat_map events_of l) = map report l.
Proof.
  induction l as [|q l IH]; simpl; [reflexivity|].
  rewrite written_app, IH. unfold events_of.
  destruct (q_ret q =? 0)%Z; reflexivity.
Qed.

Lemma written_stdout_log (l : list query_record) :
  written Stdout (flat_map events_of l) = [].
Proof.
  induction l as [|q l IH]; simpl; [reflexivity|].
  rewrite written_app, IH. unfold events_of.
  destruct (q_ret q =? 0)%Z; reflexivity.
Qed.

Lemma queried_pids_log (l : list query_record) :
  queried_pids (flat_map events_of l) = map q_pid l.
Proof.
  induction l as [|q l IH]; simpl; [reflexivity|].
  rewrite queried_pids_app, IH. unfold events_of.
  destruct (q_ret q =? 0)%Z; reflexivity.
Qed.

Lemma queried_sets_log (l : list query_record) :
  queried_sets (flat_map events_of l) = map q_before l.
Proof.
  induction l as [|q l IH]; simpl; [reflexivity|].
  rewrite queried_sets_app, IH. unfold events_of.
  destruct (q_ret q =? 0)%Z; reflexivity.
Qed.

Lemma cap_init_calls_log (l : list query_record) :
  cap_init_calls (flat_map events_of l) = 0%nat.
Proof.
  unfold cap_init_calls.
  induction l as [|q l IH]; simpl; [reflexivity|].
  rewrite filter_app, length_app, IH. unfold events_of.
  destruct (q_ret q =? 0)%Z; reflexivity.
Qed.

Lemma query_log_pids (args : list string) :
  forall c errno, map q_pid (query_log args c errno) = map atoi args.
Proof.
  induction args as [|arg rest IH]; intros c errno; simpl; [reflexivity|].
  destruct (capgetp (atoi arg) c errno) as [[ret c'] errno'].
  simpl. now rewrite IH.
Qed.

Lemma query_log_args (args : list string) :
  forall c errno, map q_arg (query_log args c errno) = args.
Proof.
  induction args as [|arg rest IH]; intros c errno; simpl; [reflexivity|].
  destruct (capgetp (atoi arg) c errno) as [[ret c'] errno'].
  simpl. now rewrite IH.
Qed.

(** Each call is handed what the call before it left in the set. *)
Lemma query_log_chain (args : list string) :
  forall c errno,
    map q_before (query_log args c errno)
    = removelast (c :: map q_after (query_log args c errno)).
Proof.
  induction args as [|arg rest IH]; intros c errno; [reflexivity|].
  cbn [query_log].
  destruct (capgetp (atoi arg) c errno) as [[ret c'] errno'].
  cbn [map q_before q_after]. rewrite IH.
  reflexivity.
Qed.

(** What each query hands back is what [capgetp] computes from the
    argument's pid and the contents it was handed. *)
Lemma query_log_outcome (args : list string) :
  forall c errno q,
    In q (query_log args c errno) ->
    exists errno0,
      capgetp (atoi (q_arg q)) (q_before q) errno0
      = (q_ret q, q_after q, q_errno q) /\ q_pid q = atoi (q_arg q).
Proof.
  induction args as [|arg rest IH]; intros c errno q Hin; [destruct Hin|].
  cbn [query_log] in Hin.
  destruct (capgetp (atoi arg) c errno) as [[ret c'] errno'] eqn:Hq.
  destruct Hin as [<-|Hin].
  - exists errno. simpl. auto.
  - eauto.
Qed.

(** ** Exit status (C9) *)

(** C9: when at least one pid argument is given and [cap_init]
    returns a set, [main] exits with status 0, whatever [capgetp]
    answers for the pids; and a status other than 0 is 1 and comes
    only from a missing pid argument or a failed [cap_init]. *)
Theorem exit_status_main (argv : list string) :
  ((2 <= List.length argv)%nat -> fst (cap_init 0%Z) <> None ->
   exit_status (main argv) = 0%Z) /\
  (exit_status (main argv) <> 0%Z ->
   exit_status (main argv) = 1%Z /\
   ((List.length argv < 2)%nat \/ fst (cap_init 0%Z) = None)).
Proof.
  destruct (Nat.lt_ge_cases (List.length argv) 2) as [Hlt|Hge].
  - rewrite (main_usage argv Hlt). simpl. split; [lia|auto].
  - destruct (cap_init 0%Z) as [[c|] errno] eqn:Hinit.
    + rewrite (main_log argv c errno Hge Hinit). simpl.
      split; [reflexivity|congruence].
    + rewrite (main_null argv errno Hge Hinit). simpl.
      split; [congruence|auto].
Qed.

(** ** Where the results go (C10) *)

(** C10: nothing is ever written to standard output; when the loop
    runs, the lines on standard error are the reports of the queries in
    order, and the report of a query that succeeded (return value 0) is
    the capability line with the text of the set the query filled. *)
Theorem results_on_stderr (argv : list string) :
  written Stdout (snd (main argv)) = [] /\
  (forall c errno,
      (2 <= List.length argv)%nat ->
      cap_init 0%Z = (Some c, errno) ->
      let log := query_log (tl argv) c errno in
      written Stderr (snd (main argv)) = map report log /\
      map q_arg log = tl argv /\
      forall q, In q log -> q_ret q = 0%Z ->
                report q = capabilities_text (q_arg q) (cap_to_text (q_after q)) /\
                In (capabilities_text (q_arg q) (cap_to_text (q_after q)))
                   (written Stderr (snd (main argv)))).
Proof.
  split.
  - destruct (Nat.lt_ge_cases (List.length argv) 2) as [Hlt|Hge].
    + rewrite (main_usage argv Hlt). reflexivity.
    + destruct (cap_init 0%Z) as [[c|] errno] eqn:Hinit.
      * rewrite (main_log argv c errno Hge Hinit). simpl.
        apply written_stdout_log.
      * rewrite (main_null argv errno Hge Hinit). reflexivity.
  - intros c errno Hge Hinit log.
    rewrite (main_log argv c errno Hge Hinit). simpl.
    change (written Stderr (flat_map events_of log) = map report log /\
            map q_arg log = tl argv /\
            forall q, In q log -> q_ret q = 0%Z ->
              report q = capabilities_text (q_arg q) (cap_to_text (q_after q)) /\
              In (capabilities_text (q_arg q) (cap_to_text (q_after q)))
                 (written Stderr (flat_map events_of log))).
    rewrite written_stderr_log. split; [reflexivity|].
    split; [apply query_log_args|].
    intros q Hin Hret.
    assert (Hrep : report q = capabilities_text (q_arg q) (cap_to_text (q_after q))).
    { unfold report. rewrite Hret. reflexivity. }
    split; [exact Hrep|].
    rewrite <- Hrep. apply in_map. exact Hin.
Qed.

(** ** Which pids are queried (C7) *)

(** C7, as the program has it: when the loop runs, [capgetp] is called
    once per argument, in order, with the [int] [atoi] makes of the
    argument, be it zero or negative: nothing is turned down before the
    call.  The texts written are the reports of these calls and nothing
    else, and the report of a call that failed is the failure text with
    the pid and the [errno] that very call left. *)
Theorem every_argument_queried (argv : list string) (c : cap_struct) (errno : Z) :
  (2 <= List.length argv)%nat ->
  cap_init 0%Z = (Some c, errno) ->
  queried_pids (snd (main argv)) = map atoi (tl argv) /\
  written Stderr (snd (main argv)) = map report (query_log (tl argv) c errno) /\
  forall q, In q (query_log (tl argv) c errno) ->
    q_pid q = atoi (q_arg q) /\
    (exists errno0,
        capgetp (q_pid q) (q_before q) errno0 = (q_ret q, q_after q, q_errno q)) /\
    (q_ret q <> 0%Z ->
     report q = query_failed_text strerror (q_pid q) (q_errno q)).
Proof.
  intros Hge Hinit. rewrite (main_log argv c errno Hge Hinit). cbn [snd].
  change (queried_pids (flat_map events_of (query_log (tl argv) c errno))
          = map atoi (tl argv) /\
          written Stderr (flat_map events_of (query_log (tl argv) c errno))
          = map report (query_log (tl argv) c errno) /\
          forall q, In q (query_log (tl argv) c errno) ->
            q_pid q = atoi (q_arg q) /\
            (exists errno0,
                capgetp (q_pid q) (q_before q) errno0
                = (q_ret q, q_after q, q_errno q)) /\
            (q_ret q <> 0%Z ->
             report q = query_failed_text strerror (q_pid q) (q_errno q))).
  rewrite queried_pids_log, written_stderr_log.
  split; [apply query_log_pids|]. split; [reflexivity|].
  intros q Hq.
  destruct (query_log_outcome (tl argv) c errno q Hq) as (errno0 & Hcall & Hpid).
  split; [exact Hpid|]. split.
  - exists errno0. rewrite Hpid. exact Hcall.
  - intros Hret. unfold report.
    destruct (Z.eqb_spec (q_ret q) 0) as [E|_]; [contradiction|reflexivity].
Qed.

End GetpcapsFacts.

Section QueryIsolation.

Variable cap_struct : Type.
Variable cap_init : Z -> option cap_struct * Z.
Variable capgetp : Z -> cap_struct -> Z -> Z * cap_struct * Z.
Variable cap_to_text : cap_struct -> string.
Variable strerror : Z -> string.

(** The kernel's view of the processes. *)
Variable query : Z -> Z + cap_struct.
Hypothesis capgetp_answers : answers_from cap_struct capgetp query.

Local Abbreviation main := (main cap_struct cap_init capgetp cap_to_text strerror).
Local Abbreviation query_log := (query_log cap_struct capgetp).
Local Abbreviation report := (report cap_struct cap_to_text strerror).
Local Abbreviation line_for := (line_for cap_struct cap_to_text strerror query).

Lemma report_log_lines (args : list string) :
  forall c errno, map report (query_log args c errno) = map line_for args.
Proof.
  induction args as [|arg rest IH]; intros c errno; [reflexivity|].
  cbn [query_log map].
  pose proof (capgetp_answers (atoi arg) c errno) as Hq.
  unfold line_for at 1.
  destruct (query (atoi arg)) as [err|s].
  - destruct Hq as (ret & c' & Hret & ->). cbn [map]. rewrite IH. f_equal.
    unfold report. simpl.
    destruct (Z.eqb_spec ret 0); [contradiction|reflexivity].
  - destruct Hq as (errno' & ->). cbn [map]. rewrite IH. reflexivity.
Qed.

Lemma stderr_lines (argv : list string) (c : cap_struct) (errno : Z) :
  (2 <= List.length argv)%nat ->
  cap_init 0%Z = (Some c, errno) ->
  written Stderr (snd (main argv)) = map line_for (tl argv).
Proof.
  intros Hge Hinit.
  rewrite (main_log _ cap_init capgetp cap_to_text strerror argv c errno Hge Hinit).
  simpl. rewrite written_stderr_log. apply report_log_lines.
Qed.

(** ** One set for all pids (C8) *)

(** C8, as the program has it: one capability set is made, before the
    loop, and every [capgetp] call works on it, each call finding in it
    what the call before left.  When [capgetp] answers from the kernel's
    view of each pid alone (for a pid every call succeeds and leaves the
    same set, whatever the set held before, or every call fails with the
    same [errno]), the text written for an argument still depends on
    that argument alone: the same argument gets the same text in any two
    runs, whatever was processed before it. *)
Theorem one_set_for_all_pids (argv : list string) (c : cap_struct) (errno : Z) :
  (2 <= List.length argv)%nat ->
  cap_init 0%Z = (Some c, errno) ->
  cap_init_calls (snd (main argv)) = 1%nat /\
  queried_sets (snd (main argv))
  = removelast (c :: map q_after (query_log (tl argv) c errno)) /\
  forall argv' k k' arg,
    (2 <= List.length argv')%nat ->
    nth_error (tl argv) k = Some arg ->
    nth_error (tl argv') k' = Some arg ->
    nth_error (written Stderr (snd (main argv))) k
    = nth_error (written Stderr (snd (main argv'))) k'.
Proof.
  intros Hge Hinit. split; [|split].
  - rewrite (main_log _ cap_init capgetp cap_to_text strerror argv c errno Hge Hinit).
    unfold cap_init_calls. simpl. f_equal.
    apply (cap_init_calls_log cap_struct cap_to_text strerror).
  - rewrite (main_log _ cap_init capgetp cap_to_text strerror argv c errno Hge Hinit).
    simpl. rewrite queried_sets_log. apply query_log_chain.
  - intros argv' k k' arg Hge' Hk Hk'.
    rewrite (stderr_lines argv c errno Hge Hinit).
    rewrite (stderr_lines argv' c errno Hge' Hinit).
    rewrite !nth_error_map, Hk, Hk'. reflexivity.
Qed.

End QueryIsolation.

(** ** The demo configuration *)

Lemma demo_answers : answers_from CapabilitySet (capgetp_of demo_query) demo_errno_or_set.
Proof.
  intros pid c errno. unfold demo_errno_or_set, capgetp_of.
  destruct (demo_query pid) as [s|e] eqn:Hq.
  - exists errno. reflexivity.
  - exists (-1)%Z, c. split; [discriminate|reflexivity].
Qed.

Lemma exit_status_main_witness :
  ((2 <= List.length ["getpcaps"; "2"])%nat /\
   fst (demo_cap_init 0%Z) <> None /\
   exit_status (demo_main ["getpcaps"; "2"]) = 0%Z) /\
  (exit_status (demo_main ["getpcaps"]) <> 0%Z /\
   exit_status (demo_main ["getpcaps"]) = 1%Z /\
   ((List.length ["getpcaps"] < 2)%nat \/ fst (demo_cap_init 0%Z) = None)).
Proof.
  split.
  - assert (Hlen : (2 <= List.length ["getpcaps"; "2"])%nat) by (simpl; lia).
    assert (Hinit : fst (demo_cap_init 0%Z) <> None) by (simpl; discriminate).
    split; [exact Hlen|]. split; [exact Hinit|].
    exact (proj1 (exit_status_main CapabilitySet demo_cap_init
                    (capgetp_of demo_query) (encode demo_MAX_CAP demo_table)
                    demo_strerror ["getpcaps"; "2"]) Hlen Hinit).
  - assert (Hst : exit_status (demo_main ["getpcaps"]) <> 0%Z)
      by (vm_compute; discriminate).
    split; [exact Hst|].
    exact (proj2 (exit_status_main CapabilitySet demo_cap_init
                    (capgetp_of demo_query) (encode demo_MAX_CAP demo_table)
                    demo_strerror ["getpcaps"]) Hst).
Defined.

Lemma results_on_stderr_witness :
  written Stdout (snd (demo_main ["getpcaps"; "1"; "2"; "3"])) = [] /\
  In ("Capabilities for `1': chown=ep kill=i" ++ nl)
     (written Stderr (snd (demo_main ["getpcaps"; "1"; "2"; "3"]))).
Proof.
  pose proof (results_on_stderr CapabilitySet demo_cap_init
                (capgetp_of demo_query) (encode demo_MAX_CAP demo_table)
                demo_strerror ["getpcaps"; "1"; "2"; "3"]) as [Hout Herr].
  split; [exact Hout|].
  assert (Hlen : (2 <= List.length ["getpcaps"; "1"; "2"; "3"])%nat) by (simpl; lia).
  destruct (Herr empty 0%Z Hlen eq_refl) as (_ & _ & Hq).
  exact (proj2 (Hq (mkQuery CapabilitySet "1" 1%Z empty 0%Z demo_set 0%Z)
                   (or_introl eq_refl) eq_refl)).
Defined.

Lemma every_argument_queried_witness :
  (2 <= List.length ["getpcaps"; "0"; "-5"; " 12abc"])%nat /\
  demo_cap_init 0%Z = (Some empty, 0%Z) /\
  queried_pids (snd (demo_main ["getpcaps"; "0"; "-5"; " 12abc"]))
  = [0; -5; 12]%Z /\
  written Stderr (snd (demo_main ["getpcaps"; "0"; "-5"; " 12abc"]))
  = ["Failed to get cap's for proccess 0: (No such process)" ++ nl;
     "Failed to get cap's for proccess -5: (No such process)" ++ nl;
     "Failed to get cap's for proccess 12: (No such process)" ++ nl].
Proof.
  assert (Hlen : (2 <= List.length ["getpcaps"; "0"; "-5"; " 12abc"])%nat)
    by (simpl; lia).
  split; [exact Hlen|]. split; [reflexivity|].
  destruct (every_argument_queried CapabilitySet demo_cap_init
              (capgetp_of demo_query) (encode demo_MAX_CAP demo_table)
              demo_strerror ["getpcaps"; "0"; "-5"; " 12abc"] empty 0%Z
              Hlen eq_refl) as (Hpids & Hlines & _).
  split; [exact Hpids|exact Hlines].
Defined.

(** The arguments "0" and "-5" reach [capgetp] as the pids 0 and -5. *)
Lemma nonpositive_pid_queried :
  queried_pids (snd (demo_main ["getpcaps"; "0"; "-5"])) = [0; -5]%Z /\
  ~ Forall (fun pid => 0 < pid)%Z
           (queried_pids (snd (demo_main ["getpcaps"; "0"; "-5"]))).
Proof.
  split; [reflexivity|].
  intros H. vm_compute in H. inversion H as [|pid l Hpid _]. discriminate Hpid.
Qed.

(** ** Failure isolation (C6) *)

Lemma capgetp_of_answers (query : Z -> result CapabilitySet) :
  answers_from CapabilitySet (capgetp_of query) (errno_or_set query).
Proof.
  intros pid c errno. unfold errno_or_set, capgetp_of.
  destruct (query pid) as [s|e].
  - exists errno. reflexivity.
  - exists (-1)%Z, c. split; [discriminate|reflexivity].
Qed.

(** C6: with [capgetp] as ProcessCapabilityQuery has it, a run over any
    arguments goes through all of them and exits with 0, whichever
    queries fail: it writes one text per argument, in order, and the
    text of an argument is the one its own pid calls for, the capability
    text when the query succeeds and the error report when it fails.  So
    a failed query neither stops the loop nor changes the text of any
    other argument; for a valid, a missing and another valid pid the
    texts are a capability text, the report of ESRCH and a capability
    text. *)
Theorem failure_isolation
        (cap_init : Z -> option CapabilitySet * Z)
        (cap_to_text : CapabilitySet -> string) (strerror : Z -> string)
        (query : Z -> result CapabilitySet)
        (argv : list string) (c : CapabilitySet) (errno : Z) :
  (2 <= List.length argv)%nat ->
  cap_init 0%Z = (Some c, errno) ->
  exit_status (main CapabilitySet cap_init (capgetp_of query)
                    cap_to_text strerror argv) = 0%Z /\
  written Stderr (snd (main CapabilitySet cap_init (capgetp_of query)
                            cap_to_text strerror argv))
  = map (line_for CapabilitySet cap_to_text strerror (errno_or_set query))
        (tl argv) /\
  written Stdout (snd (main CapabilitySet cap_init (capgetp_of query)
                            cap_to_text strerror argv)) = [] /\
  forall a1 a2 a3 s1 s3,
    tl argv = [a1; a2; a3] ->
    query (atoi a1) = Ok s1 ->
    query (atoi a2) = Err ProcessNotFound ->
    query (atoi a3) = Ok s3 ->
    written Stderr (snd (main CapabilitySet cap_init (capgetp_of query)
                              cap_to_text strerror argv))
    = [capabilities_text a1 (cap_to_text s1);
       query_failed_text strerror (atoi a2) ESRCH;
       capabilities_text a3 (cap_to_text s3)].
Proof.
  intros Hge Hinit.
  pose proof (stderr_lines CapabilitySet cap_init (capgetp_of query)
                cap_to_text strerror (errno_or_set query)
                (capgetp_of_answers query) argv c errno Hge Hinit) as Hlines.
  split; [|split; [exact Hlines|split]].
  - rewrite (main_log _ cap_init (capgetp_of query) cap_to_text strerror
               argv c errno Hge Hinit).
    reflexivity.
  - rewrite (main_log _ cap_init (capgetp_of query) cap_to_text strerror
               argv c errno Hge Hinit).
    cbn [snd]. apply (written_stdout_log CapabilitySet cap_to_text strerror).
  - intros a1 a2 a3 s1 s3 Htl H1 H2 H3.
    rewrite Hlines, Htl. cbn [map]. unfold line_for, errno_or_set.
    rewrite H1, H2, H3. reflexivity.
Qed.

Lemma failure_isolation_witness :
  (2 <= List.length ["getpcaps"; "1"; "2"; "3"])%nat /\
  demo_cap_init 0%Z = (Some empty, 0%Z) /\
  exit_status (demo_main ["getpcaps"; "1"; "2"; "3"]) = 0%Z /\
  written Stderr (snd (demo_main ["getpcaps"; "1"; "2"; "3"]))
  = ["Capabilities for `1': chown=ep kill=i" ++ nl;
     "Failed to get cap's for proccess 2: (No such process)" ++ nl;
     "Capabilities for `3': chown,dac_override,fowner=ep" ++ nl] /\
  written Stdout (snd (demo_main ["getpcaps"; "1"; "2"; "3"])) = [].
Proof.
  assert (Hlen : (2 <= List.length ["getpcaps"; "1"; "2"; "3"])%nat) by (simpl; lia).
  split; [exact Hlen|]. split; [reflexivity|].
  destruct (failure_isolation demo_cap_init (encode demo_MAX_CAP demo_table)
              demo_strerror demo_query ["getpcaps"; "1"; "2"; "3"] empty 0%Z
              Hlen eq_refl) as (Hst & _ & Hout & Hthree).
  split; [exact Hst|]. split; [|exact Hout].
  exact (Hthree "1" "2" "3" demo_set demo_set2 eq_refl eq_refl eq_refl eq_refl).
Defined.

(** Two pids, one [cap_init]: the query for the second pid is handed
    the set as the query for the first pid filled it. *)
Lemma set_reused_across_pids :
  cap_init_calls (snd (demo_main ["getpcaps"; "1"; "3"])) = 1%nat /\
  queried_pids (snd (demo_main ["getpcaps"; "1"; "3"])) = [1; 3]%Z /\
  queried_sets (snd (demo_main ["getpcaps"; "1"; "3"])) = [empty; demo_set] /\
  demo_set <> empty /\
  ~ (List.length (queried_pids (snd (demo_main ["getpcaps"; "1"; "3"])))
     <= cap_init_calls (snd (demo_main ["getpcaps"; "1"; "3"])))%nat.
Proof.
  repeat split; try reflexivity.
  - discriminate.
  - vm_compute. lia.
Qed.

Lemma one_set_for_all_pids_witness :
  (2 <= List.length ["getpcaps"; "2"; "3"])%nat /\
  demo_cap_init 0%Z = (Some empty, 0%Z) /\
  cap_init_calls (snd (demo_main ["getpcaps"; "2"; "3"])) = 1%nat /\
  queried_sets (snd (demo_main ["getpcaps"; "2"; "3"])) = [empty; empty] /\
  nth_error (written Stderr (snd (demo_main ["getpcaps"; "2"; "3"]))) 1
  = nth_error (written Stderr (snd (demo_main ["getpcaps"; "1"; "2"; "3"]))) 2.
Proof.
  assert (Hlen : (2 <= List.length ["getpcaps"; "2"; "3"])%nat) by (simpl; lia).
  assert (Hlen' : (2 <= List.length ["getpcaps"; "1"; "2"; "3"])%nat) by (simpl; lia).
  split; [exact Hlen|]. split; [reflexivity|].
  destruct (one_set_for_all_pids CapabilitySet demo_cap_init
              (capgetp_of demo_query) (encode demo_MAX_CAP demo_table)
              demo_strerror demo_errno_or_set demo_answers
              ["getpcaps"; "2"; "3"] empty 0%Z Hlen eq_refl)
    as (Hone & Hsets & Hsame).
  split; [exact Hone|]. split; [exact Hsets|].
  exact (Hsame ["getpcaps"; "1"; "2"; "3"] 1%nat 2%nat "3" Hlen' eq_refl eq_refl).
Defined.

(* ================================================================== *)
(** * Properties of the capability set and the text codec               *)
(* ================================================================== *)

(** ** Splitting and joining *)

Lemma ascii_eqb_refl (c : ascii) : ascii_eqb c c = true.
Proof. apply Ascii.eqb_refl. Qed.

Lemma ascii_eqb_false (x c : ascii) : x <> c -> ascii_eqb x c = false.
Proof. intros H. apply Ascii.eqb_neq. exact H. Qed.

Lemma split_on_whole (c : ascii) (w : list ascii) :
  ~ In c w -> split_on c w = [w].
Proof.
  induction w as [|x w IH]; intros Hc; simpl; [reflexivity|].
  rewrite ascii_eqb_false by (intros ->; apply Hc; left; reflexivity).
  rewrite IH by (intros H; apply Hc; right; exact H).
  reflexivity.
Qed.

Lemma split_on_cut (c : ascii) (w r : list ascii) :
  ~ In c w -> split_on c (w ++ c :: r) = w :: split_on c r.
Proof.
  induction w as [|x w IH]; intros Hc; simpl.
  - rewrite ascii_eqb_refl. reflexivity.
  - rewrite ascii_eqb_false by (intros ->; apply Hc; left; reflexivity).
    rewrite IH by (intros H; apply Hc; right; exact H).
    reflexivity.
Qed.

Lemma split_join (c : ascii) (ws : list (list ascii)) :
  ws <> [] ->
  Forall (fun w => ~ In c w) ws ->
  split_on c (join c ws) = ws.
Proof.
  induction ws as [|w ws IH]; intros Hne Hall; [contradiction|].
  inversion Hall as [|w' ws' Hw Hws]; subst.
  destruct ws as [|w2 ws].
  - simpl. apply split_on_whole. exact Hw.
  - change (join c (w :: w2 :: ws)) with (w ++ c :: join c (w2 :: ws))%list.
    rewrite split_on_cut by exact Hw.
    rewrite IH; [reflexivity|discriminate|exact Hws].
Qed.

(** ** Flag letters *)

Lemma sig_eqb_eq (a b : signature) : sig_eqb a b = true <-> a = b.
Proof.
  destruct a as [[ae ai] ap], b as [[be bi] bp].
  destruct ae, ai, ap, be, bi, bp; simpl; split; intros H;
    try reflexivity; try discriminate.
Qed.

Lemma sig_eqb_refl (a : signature) : sig_eqb a a = true.
Proof. apply sig_eqb_eq. reflexivity. Qed.

Lemma sig_eqb_neq (a b : signature) : sig_eqb a b = false <-> a <> b.
Proof.
  split.
  - intros H E. apply sig_eqb_eq in E. congruence.
  - intros H. destruct (sig_eqb a b) eqn:E; [|reflexivity].
    apply sig_eqb_eq in E. contradiction.
Qed.

Lemma parse_flags_text (sg : signature) :
  sg <> no_flags -> parse_flags (flags_text sg) = Some sg.
Proof.
  destruct sg as [[e i] p]. intros H.
  destruct e, i, p; try reflexivity. contradiction H. reflexivity.
Qed.

Lemma flags_text_subseq (sg : signature) :
  subseq (flags_text sg) ["e"; "i"; "p"]%char = true.
Proof. destruct sg as [[e i] p]. destruct e, i, p; reflexivity. Qed.

Lemma flags_text_no_separator (sg : signature) (c : ascii) :
  In c (flags_text sg) -> c = "e"%char \/ c = "i"%char \/ c = "p"%char.
Proof.
  destruct sg as [[e i] p]. destruct e, i, p; simpl; intuition auto.
Qed.

Lemma flags_text_nonempty (sg : signature) :
  sg <> no_flags -> flags_text sg <> [].
Proof.
  destruct sg as [[e i] p]. intros H.
  destruct e, i, p; try discriminate. contradiction H. reflexivity.
Qed.

(** ** First occurrences *)

Lemma first_occurrences_In (l : list signature) (x : signature) :
  In x (first_occurrences l) <-> In x l.
Proof.
  induction l as [|y l IH]; simpl; [tauto|].
  rewrite filter_In, IH. split.
  - intros [H|[H _]]; auto.
  - intros [H|H]; [auto|].
    destruct (sig_eqb x y) eqn:E.
    + apply sig_eqb_eq in E. auto.
    + right. split; [exact H|reflexivity].
Qed.

Lemma first_occurrences_NoDup (l : list signature) :
  NoDup (first_occurrences l).
Proof.
  induction l as [|y l IH]; simpl; constructor.
  - rewrite filter_In. intros [_ H]. rewrite sig_eqb_refl in H. discriminate.
  - apply NoDup_filter. exact IH.
Qed.

(** ** Ascending lists *)

Lemma seq_ascending (n a : nat) : StronglySorted lt (seq a n).
Proof.
  revert a. induction n as [|n IH]; intros a; simpl; constructor.
  - apply IH.
  - apply Forall_forall. intros x Hx. apply in_seq in Hx. lia.
Qed.

Lemma filter_ascending (f : nat -> bool) (l : list nat) :
  StronglySorted lt l -> StronglySorted lt (filter f l).
Proof.
  induction 1 as [|x l Hs IH Hx]; simpl; [constructor|].
  destruct (f x); [|exact IH].
  constructor; [exact IH|].
  apply Forall_forall. intros y Hy. apply filter_In in Hy.
  rewrite Forall_forall in Hx. apply Hx. tauto.
Qed.

(** ** Bits of a capability set *)

Lemma bit_empty (which : FlagKind) (idx : nat) : bit which idx empty = false.
Proof. unfold bit. destruct which; apply N.bits_0. Qed.

Lemma signature_of_empty (idx : nat) : signature_of empty idx = no_flags.
Proof. unfold signature_of. rewrite !bit_empty. reflexivity. Qed.

Lemma vec_with_vec (w w' : FlagKind) (v : N) (s : CapabilitySet) :
  vec w (with_vec w' v s) = if (match w, w' with
                                | Effective, Effective
                                | Permitted, Permitted
                                | Inheritable, Inheritable => true
                                | _, _ => false
                                end) then v else vec w s.
Proof. destruct w, w'; reflexivity. Qed.

Lemma has_flag_signature_of (w : FlagKind) (s : CapabilitySet) (idx : nat) :
  has_flag w (signature_of s idx) = bit w idx s.
Proof. destruct w; reflexivity. Qed.

Lemma signature_of_no_flags (s : CapabilitySet) (idx : nat) :
  signature_of s idx = no_flags <-> forall w, bit w idx s = false.
Proof.
  unfold signature_of, no_flags. split.
  - intros H w. injection H as He Hi Hp. destruct w; assumption.
  - intros H. rewrite (H Effective), (H Inheritable), (H Permitted). reflexivity.
Qed.

Lemma N_of_nat_eqb (a b : nat) : (N.of_nat a =? N.of_nat b)%N = (a =? b)%nat.
Proof.
  destruct (Nat.eqb_spec a b) as [->|H].
  - apply N.eqb_refl.
  - apply N.eqb_neq. intros E. apply Nat2N.inj in E. contradiction.
Qed.

Lemma bit_raise_if (b : bool) (w w' : FlagKind) (idx j : nat) (s : CapabilitySet) :
  bit w j (raise_if b w' idx s)
  = bit w j s || (b && (idx =? j)%nat &&
                  match w, w' with
                  | Effective, Effective
                  | Permitted, Permitted
                  | Inheritable, Inheritable => true
                  | _, _ => false
                  end).
Proof.
  unfold raise_if, bit. destruct b; simpl; [|now rewrite orb_false_r].
  rewrite vec_with_vec.
  destruct w, w'; simpl;
    rewrite ?andb_false_r, ?orb_false_r, ?andb_true_r; try reflexivity;
    rewrite N.setbit_eqb, N_of_nat_eqb; apply orb_comm.
Qed.

Lemma bit_raise (sg : signature) (w : FlagKind) (idx j : nat) (s : CapabilitySet) :
  bit w j (raise sg idx s) = bit w j s || (has_flag w sg && (idx =? j)%nat).
Proof.
  destruct sg as [[e i] p]. unfold raise. rewrite !bit_raise_if.
  destruct w; simpl;
    rewrite ?andb_false_r, ?orb_false_r, ?andb_true_r; reflexivity.
Qed.

Lemma bit_raise_group (g : signature * list nat) (w : FlagKind) (j : nat) :
  forall s,
    bit w j (raise_group g s)
    = bit w j s || (has_flag w (fst g) && existsb (fun idx => (idx =? j)%nat) (snd g)).
Proof.
  destruct g as [sg idxs]. unfold raise_group. simpl.
  induction idxs as [|idx idxs IH]; intros s; simpl.
  - now rewrite andb_false_r, orb_false_r.
  - rewrite IH, bit_raise.
    destruct (bit w j s), (has_flag w sg), (idx =? j)%nat; reflexivity.
Qed.

Lemma bit_raise_groups (gs : list (signature * list nat)) (w : FlagKind) (j : nat) :
  forall s,
    bit w j (raise_groups gs s)
    = bit w j s ||
      existsb (fun g => has_flag w (fst g) &&
                        existsb (fun idx => (idx =? j)%nat) (snd g)) gs.
Proof.
  unfold raise_groups.
  induction gs as [|g gs IH]; intros s; simpl.
  - now rewrite orb_false_r.
  - rewrite IH, bit_raise_group. now rewrite orb_assoc.
Qed.

(** Two sets with the same bits are the same set. *)
Lemma CapabilitySet_ext (a b : CapabilitySet) :
  (forall w idx, bit w idx a = bit w idx b) -> a = b.
Proof.
  intros H.
  assert (Hv : forall w, vec w a = vec w b).
  { intros w. apply N.bits_inj. intros n.
    specialize (H w (N.to_nat n)). unfold bit in H.
    rewrite N2Nat.id in H. exact H. }
  destruct a as [ae ap ai], b as [be bp bi].
  pose proof (Hv Effective) as He. pose proof (Hv Permitted) as Hp.
  pose proof (Hv Inheritable) as Hi. simpl in He, Hp, Hi.
  congruence.
Qed.

Section CoreFacts.

Variable MAX_CAP : nat.
Variable table : list (nat * string).

Local Abbreviation valid := (valid MAX_CAP).
Local Abbreviation isSet := (isSet MAX_CAP).
Local Abbreviation set := (set MAX_CAP).
Local Abbreviation clear := (clear MAX_CAP).
Local Abbreviation nameOf := (nameOf table).
Local Abbreviation indexOf := (indexOf table).
Local Abbreviation named := (named table).
Local Abbreviation name_text := (name_text table).
Local Abbreviation printed := (printed MAX_CAP table).
Local Abbreviation groups := (groups MAX_CAP table).
Local Abbreviation render_group := (render_group table).
Local Abbreviation encode := (encode MAX_CAP table).
Local Abbreviation decode := (decode MAX_CAP table).
Local Abbreviation decode_group := (decode_group MAX_CAP table).
Local Abbreviation decode_name := (decode_name MAX_CAP table).
Local Abbreviation set_flags := (set_flags MAX_CAP).
Local Abbreviation set_if := (set_if MAX_CAP).
Local Abbreviation table_ok := (table_ok table).

(** ** Range enforcement (C5) *)

(** C5: for an index at or beyond MAX_CAP and any of the three vectors,
    [isSet], [set] and [clear] each fail with [IndexOutOfRange], and the
    set is as it was. *)
Theorem range_enforcement (which : FlagKind) (idx : nat) (s : CapabilitySet) :
  (MAX_CAP <= idx)%nat ->
  isSet which idx s = (Err IndexOutOfRange, s) /\
  set which idx s = (Err IndexOutOfRange, s) /\
  clear which idx s = (Err IndexOutOfRange, s).
Proof.
  intros H. unfold isSet, set, clear.
  destruct (Nat.ltb_spec idx MAX_CAP) as [Hlt|_]; [lia|].
  repeat split.
Qed.

(** Below MAX_CAP the three operations succeed, and [set] and [clear]
    keep the invariant. *)
Lemma valid_bits (s : CapabilitySet) :
  valid s -> forall w idx, bit w idx s = true -> (idx < MAX_CAP)%nat.
Proof.
  intros Hv w idx Hb.
  destruct (Nat.lt_ge_cases idx MAX_CAP) as [Hlt|Hge]; [exact Hlt|exfalso].
  specialize (Hv w). unfold bit in Hb.
  destruct (N.eq_dec (vec w s) 0) as [E|E].
  - rewrite E, N.bits_0 in Hb. discriminate.
  - assert (Hlog : (N.log2 (vec w s) < N.of_nat MAX_CAP)%N).
    { apply N.log2_lt_pow2; [lia|exact Hv]. }
    rewrite N.bits_above_log2 in Hb by lia. discriminate.
Qed.

(** ** The empty set (C2) *)

Lemma printed_empty : printed empty = [].
Proof.
  unfold printed.
  induction (seq 0 MAX_CAP) as [|idx l IH]; cbn [filter]; [reflexivity|].
  rewrite signature_of_empty, sig_eqb_refl, andb_false_r. exact IH.
Qed.

(** C2: the set with no bit in any vector encodes to the one-character
    text [=], not to the empty text. *)
Theorem encode_empty : encode empty = "=" /\ encode empty <> "".
Proof.
  assert (H : encode empty = "=").
  { unfold encode, groups. rewrite printed_empty. reflexivity. }
  split; [exact H|]. rewrite H. discriminate.
Qed.

(** ** The name table *)

Lemma nameOf_In (idx : nat) (n : string) :
  nameOf idx = Ok n -> In (idx, n) table.
Proof.
  unfold nameOf.
  destruct (find (fun p => (fst p =? idx)%nat) table) as [[i m]|] eqn:Hf;
    [|discriminate].
  intros H. injection H as <-.
  apply find_some in Hf. destruct Hf as [Hin Heq]. simpl in Heq.
  apply Nat.eqb_eq in Heq. subst i. exact Hin.
Qed.

Lemma distinct_not_in (n : string) (names : list string) :
  existsb (String.eqb n) names = false -> ~ In n names.
Proof.
  intros H Hin.
  assert (E : existsb (String.eqb n) names = true).
  { apply existsb_exists. exists n. split; [exact Hin|apply String.eqb_refl]. }
  congruence.
Qed.

Lemma indexOf_of_In (t : list (nat * string)) (idx : nat) (n : string) :
  distinct (map snd t) = true ->
  In (idx, n) t ->
  find (fun p => String.eqb (snd p) n) t = Some (idx, n).
Proof.
  induction t as [|[j m] t IH]; intros Hd Hin; [destruct Hin|].
  simpl in Hd. apply andb_true_iff in Hd. destruct Hd as [Hm Hd].
  apply negb_true_iff in Hm. apply distinct_not_in in Hm.
  simpl. destruct Hin as [E|Hin].
  - injection E as -> ->. rewrite String.eqb_refl. reflexivity.
  - destruct (String.eqb_spec m n) as [->|_].
    + exfalso. apply Hm. apply in_map_iff. exists (idx, n). auto.
    + apply IH; assumption.
Qed.

Lemma indexOf_nameOf (idx : nat) (n : string) :
  table_ok = true -> nameOf idx = Ok n -> indexOf n = Ok idx.
Proof.
  intros Hok Hn. unfold table_ok in Hok.
  apply andb_true_iff in Hok. destruct Hok as [_ Hd].
  unfold indexOf. rewrite (indexOf_of_In table idx n Hd (nameOf_In idx n Hn)).
  reflexivity.
Qed.

Lemma nameOf_token (idx : nat) (n : string) :
  table_ok = true -> nameOf idx = Ok n -> token n = true.
Proof.
  intros Hok Hn. unfold table_ok in Hok.
  apply andb_true_iff in Hok. destruct Hok as [Ht _].
  rewrite forallb_forall in Ht. apply (Ht (idx, n)). apply nameOf_In. exact Hn.
Qed.

Lemma named_nameOf (idx : nat) :
  named idx = true ->
  nameOf idx = Ok (string_of_list_ascii (name_text idx)).
Proof.
  unfold named, name_text. destruct (nameOf idx) as [n|e]; [|discriminate].
  intros _. now rewrite string_of_list_ascii_of_string.
Qed.

Lemma name_text_token (idx : nat) :
  table_ok = true -> named idx = true ->
  name_text idx <> [] /\
  forall c, In c (name_text idx) -> separator c = false.
Proof.
  intros Hok Hn. pose proof (named_nameOf idx Hn) as Hname.
  pose proof (nameOf_token idx _ Hok Hname) as Ht.
  unfold token in Ht. rewrite list_ascii_of_string_of_list_ascii in Ht.
  destruct (name_text idx) as [|c l]; [discriminate|].
  split; [discriminate|].
  intros x Hx. rewrite forallb_forall in Ht.
  apply negb_true_iff. apply Ht. exact Hx.
Qed.

(** ** The groups of the encoder *)

Lemma in_printed (s : CapabilitySet) (idx : nat) :
  In idx (printed s) <->
  (idx < MAX_CAP)%nat /\ named idx = true /\ signature_of s idx <> no_flags.
Proof.
  unfold printed. rewrite filter_In, in_seq, andb_true_iff, negb_true_iff.
  rewrite sig_eqb_neq. split; intros H; repeat split; try tauto; lia.
Qed.

Lemma in_groups (s : CapabilitySet) (g : signature * list nat) :
  In g (groups s) <->
  exists idx0,
    In idx0 (printed s) /\
    g = (signature_of s idx0,
         filter (fun idx => sig_eqb (signature_of s idx) (signature_of s idx0))
                (printed s)).
Proof.
  unfold groups. rewrite in_map_iff. split.
  - intros (sg & <- & Hsg). apply (proj1 (first_occurrences_In _ _)) in Hsg.
    apply in_map_iff in Hsg. destruct Hsg as (idx0 & <- & Hin).
    exists idx0. split; [exact Hin|reflexivity].
  - intros (idx0 & Hin & ->). exists (signature_of s idx0).
    split; [reflexivity|].
    apply (proj2 (first_occurrences_In _ _)). apply in_map. exact Hin.
Qed.

Lemma groups_member (s : CapabilitySet) (sg : signature) (idxs : list nat) (idx : nat) :
  In (sg, idxs) (groups s) ->
  (In idx idxs <-> In idx (printed s) /\ signature_of s idx = sg).
Proof.
  intros Hg. apply in_groups in Hg. destruct Hg as (idx0 & _ & E).
  injection E as -> ->. split.
  - intros H. apply filter_In in H. destruct H as [H1 H2].
    apply (proj1 (sig_eqb_eq (signature_of s idx) (signature_of s idx0))) in H2.
    auto.
  - intros [H1 H2]. apply filter_In. split; [exact H1|].
    apply (proj2 (sig_eqb_eq (signature_of s idx) (signature_of s idx0))).
    exact H2.
Qed.

Lemma groups_inhabited (s : CapabilitySet) (sg : signature) (idxs : list nat) :
  In (sg, idxs) (groups s) -> sg <> no_flags /\ idxs <> [].
Proof.
  intros Hg. pose proof Hg as Hg'.
  apply in_groups in Hg. destruct Hg as (idx0 & Hin & E).
  injection E as Hsg Hidxs.
  assert (Hmem : In idx0 idxs).
  { apply (groups_member s sg idxs idx0 Hg'). split; [exact Hin|congruence]. }
  split.
  - apply in_printed in Hin. rewrite Hsg. tauto.
  - intros E. rewrite E in Hmem. destruct Hmem.
Qed.

Lemma groups_cover (s : CapabilitySet) (idx : nat) :
  In idx (printed s) ->
  exists idxs, In (signature_of s idx, idxs) (groups s) /\ In idx idxs.
Proof.
  intros Hin.
  assert (Hg : In (signature_of s idx,
                   filter (fun i => sig_eqb (signature_of s i) (signature_of s idx))
                          (printed s)) (groups s)).
  { apply in_groups. exists idx. split; [exact Hin|reflexivity]. }
  eexists. split; [exact Hg|].
  apply (groups_member s _ _ idx Hg). split; [exact Hin|reflexivity].
Qed.

Lemma groups_signatures_NoDup (s : CapabilitySet) : NoDup (map fst (groups s)).
Proof.
  unfold groups. rewrite map_map. simpl. rewrite map_id.
  apply first_occurrences_NoDup.
Qed.

Lemma printed_ascending (s : CapabilitySet) : StronglySorted lt (printed s).
Proof. unfold printed. apply filter_ascending, seq_ascending. Qed.

Lemma groups_ascending (s : CapabilitySet) (g : signature * list nat) :
  In g (groups s) -> StronglySorted lt (snd g).
Proof.
  intros Hg. apply in_groups in Hg. destruct Hg as (idx0 & _ & ->). simpl.
  apply filter_ascending, printed_ascending.
Qed.

Local Abbreviation well_formed_group := (well_formed_group MAX_CAP table).

Lemma groups_well_formed (s : CapabilitySet) (g : signature * list nat) :
  In g (groups s) -> well_formed_group g.
Proof.
  destruct g as [sg idxs]. intros Hg.
  destruct (groups_inhabited s sg idxs Hg) as [Hsg Hne].
  split; [exact Hsg|]. split; [exact Hne|].
  simpl. intros idx Hin.
  apply (groups_member s sg idxs idx Hg) in Hin. destruct Hin as [Hin _].
  apply in_printed in Hin. tauto.
Qed.

(** ** Rendering a group and reading it back *)

Lemma join_free (c d : ascii) (ws : list (list ascii)) :
  c <> d ->
  (forall w, In w ws -> ~ In c w) ->
  ~ In c (join d ws).
Proof.
  intros Hcd. induction ws as [|w ws IH]; intros Hws; [intros []|].
  destruct ws as [|w2 ws].
  - simpl. apply Hws. left. reflexivity.
  - change (join d (w :: w2 :: ws)) with (w ++ d :: join d (w2 :: ws))%list.
    intros Hin. apply in_app_or in Hin. destruct Hin as [Hin|[E|Hin]].
    + apply (Hws w); [left; reflexivity|exact Hin].
    + apply Hcd. symmetry. exact E.
    + revert Hin. apply IH. intros w' Hw'. apply Hws. right. exact Hw'.
Qed.

Lemma names_free (c : ascii) (idxs : list nat) :
  table_ok = true ->
  separator c = true ->
  (forall idx, In idx idxs -> named idx = true) ->
  forall w, In w (map name_text idxs) -> ~ In c w.
Proof.
  intros Hok Hc Hn w Hw Hin.
  apply in_map_iff in Hw. destruct Hw as (idx & <- & Hidx).
  destruct (name_text_token idx Hok (Hn idx Hidx)) as [_ Hfree].
  rewrite (Hfree c Hin) in Hc. discriminate.
Qed.

Lemma flags_free (c : ascii) (sg : signature) :
  separator c = true -> ~ In c (flags_text sg).
Proof.
  intros Hc Hin. apply flags_text_no_separator in Hin.
  destruct Hin as [ -> | [ -> | -> ] ]; discriminate.
Qed.

Lemma render_group_no_space (g : signature * list nat) :
  table_ok = true -> well_formed_group g -> ~ In " "%char (render_group g).
Proof.
  intros Hok (_ & _ & Hidx). unfold render_group. intros Hin.
  apply in_app_or in Hin. destruct Hin as [Hin|[E|Hin]].
  - revert Hin. apply join_free; [discriminate|].
    apply names_free; [exact Hok|reflexivity|]. intros idx H. apply Hidx, H.
  - discriminate.
  - revert Hin. apply flags_free. reflexivity.
Qed.

Lemma split_render_group (g : signature * list nat) :
  table_ok = true -> well_formed_group g ->
  split_on "="%char (render_group g)
  = [join ","%char (map name_text (snd g)); flags_text (fst g)].
Proof.
  intros Hok (_ & _ & Hidx). unfold render_group.
  rewrite split_on_cut.
  - rewrite split_on_whole; [reflexivity|]. apply flags_free. reflexivity.
  - apply join_free; [discriminate|].
    apply names_free; [exact Hok|reflexivity|]. intros idx H. apply Hidx, H.
Qed.

Lemma split_names (g : signature * list nat) :
  table_ok = true -> well_formed_group g ->
  split_on ","%char (join ","%char (map name_text (snd g)))
  = map name_text (snd g).
Proof.
  intros Hok (_ & Hne & Hidx). apply split_join.
  - destruct (snd g); [contradiction|discriminate].
  - apply Forall_forall.
    apply names_free; [exact Hok|reflexivity|]. intros idx H. apply Hidx, H.
Qed.

Lemma set_if_raise (b : bool) (w : FlagKind) (idx : nat) (s : CapabilitySet) :
  (idx < MAX_CAP)%nat -> set_if b w idx s = Ok (raise_if b w idx s).
Proof.
  intros Hlt. unfold set_if, raise_if, set.
  destruct b; [|reflexivity].
  destruct (Nat.ltb_spec idx MAX_CAP) as [_|Hge]; [reflexivity|lia].
Qed.

Lemma set_flags_raise (sg : signature) (idx : nat) (s : CapabilitySet) :
  (idx < MAX_CAP)%nat -> set_flags sg idx s = Ok (raise sg idx s).
Proof.
  intros Hlt. destruct sg as [[e i] p]. unfold set_flags, raise.
  rewrite (set_if_raise e Effective idx s Hlt). cbn [bind].
  rewrite (set_if_raise i Inheritable idx _ Hlt). cbn [bind].
  apply set_if_raise. exact Hlt.
Qed.

Lemma decode_name_raise (sg : signature) (idx : nat) (s : CapabilitySet) :
  table_ok = true -> named idx = true -> (idx < MAX_CAP)%nat ->
  decode_name sg (name_text idx) s = Ok (raise sg idx s).
Proof.
  intros Hok Hn Hlt. unfold decode_name.
  destruct (name_text_token idx Hok Hn) as [Hne _].
  destruct (name_text idx) as [|c l] eqn:Htext; [contradiction|].
  rewrite <- Htext.
  rewrite (indexOf_nameOf idx _ Hok (named_nameOf idx Hn)). cbn [bind].
  apply set_flags_raise. exact Hlt.
Qed.

Lemma decode_names_raise (sg : signature) (idxs : list nat) :
  table_ok = true ->
  (forall idx, In idx idxs -> (idx < MAX_CAP)%nat /\ named idx = true) ->
  forall s,
    foldM (decode_name sg) (map name_text idxs) s
    = Ok (fold_left (fun s' idx => raise sg idx s') idxs s).
Proof.
  intros Hok. induction idxs as [|idx idxs IH]; intros Hidx s; [reflexivity|].
  cbn [map foldM fold_left].
  destruct (Hidx idx (or_introl eq_refl)) as [Hlt Hn].
  rewrite (decode_name_raise sg idx s Hok Hn Hlt). cbn [bind].
  apply IH. intros i Hi. apply Hidx. right. exact Hi.
Qed.

Lemma decode_group_raise (g : signature * list nat) (s : CapabilitySet) :
  table_ok = true -> well_formed_group g ->
  decode_group (render_group g) s = Ok (raise_group g s).
Proof.
  intros Hok Hg. unfold decode_group.
  rewrite (split_render_group g Hok Hg).
  destruct Hg as (Hsg & Hne & Hidx).
  rewrite (parse_flags_text (fst g) Hsg).
  rewrite (split_names g Hok (conj Hsg (conj Hne Hidx))).
  apply decode_names_raise; assumption.
Qed.

Lemma decode_groups_raise (gs : list (signature * list nat)) :
  table_ok = true ->
  (forall g, In g gs -> well_formed_group g) ->
  forall s,
    foldM decode_group (map render_group gs) s = Ok (raise_groups gs s).
Proof.
  intros Hok. unfold raise_groups.
  induction gs as [|g gs IH]; intros Hgs s; [reflexivity|].
  cbn [map foldM fold_left].
  rewrite (decode_group_raise g s Hok (Hgs g (or_introl eq_refl))). cbn [bind].
  apply IH. intros g' Hg'. apply Hgs. right. exact Hg'.
Qed.

Lemma split_encoded (gs : list (signature * list nat)) :
  table_ok = true ->
  gs <> [] ->
  (forall g, In g gs -> well_formed_group g) ->
  split_on " "%char (join " "%char (map render_group gs)) = map render_group gs.
Proof.
  intros Hok Hne Hgs. apply split_join.
  - destruct gs; [contradiction|discriminate].
  - apply Forall_forall. intros w Hw.
    apply in_map_iff in Hw. destruct Hw as (g & <- & Hg).
    apply render_group_no_space; [exact Hok|apply Hgs, Hg].
Qed.

(** The text of a set that prints something, cut at the spaces, is the
    list of its rendered groups; the text of one that prints nothing is
    [=]. *)
Lemma encode_text (s : CapabilitySet) :
  list_ascii_of_string (encode s)
  = match groups s with
    | [] => ["="%char]
    | gs => join " "%char (map render_group gs)
    end.
Proof. unfold encode. apply list_ascii_of_string_of_list_ascii. Qed.

Lemma split_encode (s : CapabilitySet) :
  table_ok = true ->
  split_on " "%char (list_ascii_of_string (encode s))
  = match groups s with
    | [] => [["="%char]]
    | gs => map render_group gs
    end.
Proof.
  intros Hok. rewrite encode_text.
  destruct (groups s) as [|g gs] eqn:Hgs; [reflexivity|].
  apply split_encoded; [exact Hok|discriminate|].
  intros g' Hg'. apply (groups_well_formed s). rewrite Hgs. exact Hg'.
Qed.

(** ** Decoding what the encoder wrote *)

(** The groups of a set give the set back when every set bit is in
    range and named. *)
Lemma raise_groups_groups (s : CapabilitySet) :
  valid s ->
  (forall w idx, bit w idx s = true -> named idx = true) ->
  raise_groups (groups s) empty = s.
Proof.
  intros Hv Hnamed. apply CapabilitySet_ext. intros w j.
  rewrite bit_raise_groups, bit_empty, orb_false_l.
  destruct (bit w j s) eqn:Hb.
  - assert (Hin : In j (printed s)).
    { apply in_printed. split; [apply (valid_bits s Hv w j Hb)|].
      split; [apply (Hnamed w j Hb)|].
      intros E. pose proof (proj1 (signature_of_no_flags s j) E w). congruence. }
    destruct (groups_cover s j Hin) as (idxs & Hg & Hj).
    apply existsb_exists. exists (signature_of s j, idxs).
    split; [exact Hg|]. cbn [fst snd].
    rewrite has_flag_signature_of, Hb. cbn [andb].
    apply existsb_exists. exists j. split; [exact Hj|apply Nat.eqb_refl].
  - destruct (existsb _ (groups s)) eqn:He; [|reflexivity].
    apply existsb_exists in He. destruct He as ([sg idxs] & Hg & H).
    cbn [fst snd] in H. apply andb_true_iff in H. destruct H as [Hflag Hj].
    apply existsb_exists in Hj. destruct Hj as (idx & Hidx & E).
    apply Nat.eqb_eq in E. subst idx.
    apply (groups_member s sg idxs j Hg) in Hidx. destruct Hidx as [_ Hsig].
    rewrite <- Hsig, has_flag_signature_of in Hflag. congruence.
Qed.

Lemma encode_not_marker (s : CapabilitySet) :
  table_ok = true -> groups s <> [] -> encode s <> "=".
Proof.
  intros Hok Hne E.
  pose proof (split_encode s Hok) as Hsplit. rewrite E in Hsplit.
  destruct (groups s) as [|g gs] eqn:Hgs; [contradiction|].
  assert (Hg : well_formed_group g).
  { apply (groups_well_formed s). rewrite Hgs. left. reflexivity. }
  simpl in Hsplit. injection Hsplit as Hrender _.
  pose proof (split_render_group g Hok Hg) as Hcut.
  rewrite <- Hrender in Hcut. simpl in Hcut. injection Hcut as _ Hflags.
  destruct Hg as (Hsg & _). apply (flags_text_nonempty _ Hsg). congruence.
Qed.

(** C1, as the model has it: a set with all its bits below MAX_CAP and
    on named capabilities is what decoding its encoding gives (every
    set with bits below MAX_CAP when the table names every index). *)
Theorem decode_encode (s : CapabilitySet) :
  table_ok = true ->
  valid s ->
  (forall w idx, bit w idx s = true -> named idx = true) ->
  decode (encode s) = Ok s.
Proof.
  intros Hok Hv Hnamed.
  pose proof (raise_groups_groups s Hv Hnamed) as Hback.
  unfold decode.
  destruct (groups s) as [|g gs] eqn:Hgs.
  - assert (E : encode s = "=") by (unfold encode; rewrite Hgs; reflexivity).
    rewrite E. simpl. rewrite <- Hback. reflexivity.
  - assert (Hne : encode s <> "=").
    { apply encode_not_marker; [exact Hok|]. rewrite Hgs. discriminate. }
    apply String.eqb_neq in Hne. rewrite Hne.
    rewrite (split_encode s Hok), Hgs.
    rewrite decode_groups_raise; [rewrite Hback; reflexivity|exact Hok|].
    intros g' Hg'. apply (groups_well_formed s). rewrite Hgs. exact Hg'.
Qed.

(** ** Shape of the encoded text (C3, C4) *)

(** C3: the text of any set, cut at the spaces, has in each piece one
    [=], and the flag suffix after it is [eip] with some of its letters
    left out: only [e], [i], [p], each at most once, in that order. *)
Theorem flag_order (s : CapabilitySet) (piece : list ascii) :
  table_ok = true ->
  In piece (split_on " "%char (list_ascii_of_string (encode s))) ->
  exists names flags,
    split_on "="%char piece = [names; flags] /\
    subseq flags ["e"; "i"; "p"]%char = true.
Proof.
  intros Hok Hin. rewrite (split_encode s Hok) in Hin.
  destruct (groups s) as [|g gs] eqn:Hgs.
  - destruct Hin as [<-|[]]. exists [], []. split; reflexivity.
  - apply in_map_iff in Hin. destruct Hin as (g' & <- & Hg').
    assert (Hwf : well_formed_group g').
    { apply (groups_well_formed s). rewrite Hgs. exact Hg'. }
    exists (join ","%char (map name_text (snd g'))), (flags_text (fst g')).
    split; [apply (split_render_group g' Hok Hwf)|apply flags_text_subseq].
Qed.

(** C4: the text of a set is its groups, rendered and joined by single
    spaces.  Each group is the comma-joined names of its capabilities,
    [=] and the flag letters of its signature; no two groups have the
    same signature; the capabilities of a group ascend; and a capability
    is in a group exactly when it is below MAX_CAP, named and in at
    least one vector, the group being the one of its signature: so the
    capabilities of one signature are all in one group, and a capability
    in no vector is in none. *)
Theorem grouping (s : CapabilitySet) :
  table_ok = true ->
  split_on " "%char (list_ascii_of_string (encode s))
  = match groups s with
    | [] => [["="%char]]
    | gs => map render_group gs
    end /\
  (forall g, In g (groups s) ->
     split_on "="%char (render_group g)
     = [join ","%char (map name_text (snd g)); flags_text (fst g)] /\
     split_on ","%char (join ","%char (map name_text (snd g)))
     = map name_text (snd g) /\
     StronglySorted lt (snd g)) /\
  NoDup (map fst (groups s)) /\
  (forall idx sg,
     (exists idxs, In (sg, idxs) (groups s) /\ In idx idxs) <->
     ((idx < MAX_CAP)%nat /\ named idx = true /\
      signature_of s idx = sg /\ sg <> no_flags)) /\
  (forall idx, signature_of s idx = no_flags ->
               forall g, In g (groups s) -> ~ In idx (snd g)).
Proof.
  intros Hok. split; [apply (split_encode s Hok)|].
  split; [|split; [apply groups_signatures_NoDup|split]].
  - intros g Hg. pose proof (groups_well_formed s g Hg) as Hwf.
    split; [apply (split_render_group g Hok Hwf)|].
    split; [apply (split_names g Hok Hwf)|apply (groups_ascending s g Hg)].
  - intros idx sg. split.
    + intros (idxs & Hg & Hin).
      apply (groups_member s sg idxs idx Hg) in Hin. destruct Hin as [Hp Hsig].
      apply in_printed in Hp. destruct Hp as (Hlt & Hn & Hnz).
      repeat split; try assumption. rewrite <- Hsig. exact Hnz.
    + intros (Hlt & Hn & Hsig & Hnz).
      assert (Hp : In idx (printed s)).
      { apply in_printed. repeat split; try assumption. rewrite Hsig. exact Hnz. }
      destruct (groups_cover s idx Hp) as (idxs & Hg & Hin).
      exists idxs. rewrite <- Hsig. split; assumption.
  - intros idx Hz [sg idxs] Hg Hin. simpl in Hin.
    apply (groups_member s sg idxs idx Hg) in Hin. destruct Hin as [Hp _].
    apply in_printed in Hp. tauto.
Qed.

(** ** The invariant *)

Lemma valid_of_bits (s : CapabilitySet) :
  (forall w idx, bit w idx s = true -> (idx < MAX_CAP)%nat) -> valid s.
Proof.
  intros H w.
  destruct (N.eq_dec (vec w s) 0) as [E|E].
  - rewrite E. apply N.neq_0_lt_0, N.pow_nonzero. discriminate.
  - apply N.log2_lt_pow2; [lia|].
    pose proof (N.bit_log2 (vec w s) E) as Hb.
    specialize (H w (N.to_nat (N.log2 (vec w s)))).
    unfold bit in H. rewrite N2Nat.id in H. specialize (H Hb). lia.
Qed.

Lemma set_valid (which : FlagKind) (idx : nat) (s : CapabilitySet) :
  valid s -> valid (snd (set which idx s)).
Proof.
  intros Hv. unfold set.
  destruct (Nat.ltb_spec idx MAX_CAP) as [Hlt|_]; [|exact Hv].
  apply valid_of_bits. intros w j Hb. cbn [snd] in Hb.
  change (with_vec which (N.setbit (vec which s) (N.of_nat idx)) s)
    with (raise_if true which idx s) in Hb.
  rewrite bit_raise_if in Hb. apply orb_true_iff in Hb.
  destruct Hb as [Hb|Hb]; [apply (valid_bits s Hv w j Hb)|].
  apply andb_true_iff in Hb. destruct Hb as [Hb _]. simpl in Hb.
  apply Nat.eqb_eq in Hb. lia.
Qed.

Lemma clear_valid (which : FlagKind) (idx : nat) (s : CapabilitySet) :
  valid s -> valid (snd (clear which idx s)).
Proof.
  intros Hv. unfold clear.
  destruct (Nat.ltb_spec idx MAX_CAP) as [Hlt|_]; [|exact Hv].
  apply valid_of_bits. intros w j Hb. cbn [snd] in Hb.
  apply (valid_bits s Hv w j). unfold bit in *.
  rewrite vec_with_vec in Hb.
  destruct w, which; simpl in Hb; try exact Hb;
    rewrite N.clearbit_eqb in Hb; apply andb_true_iff in Hb; tauto.
Qed.

(** The printed capabilities are the named ones [indicesPresent] lists
    for some vector. *)
Lemma printed_indicesPresent (s : CapabilitySet) (idx : nat) :
  In idx (printed s) <->
  named idx = true /\ exists w, In idx (indicesPresent MAX_CAP w s).
Proof.
  rewrite in_printed. unfold indicesPresent. split.
  - intros (Hlt & Hn & Hsig). split; [exact Hn|].
    destruct (bit Effective idx s) eqn:He;
      [exists Effective; apply filter_In; rewrite in_seq; split; [lia|exact He]|].
    destruct (bit Inheritable idx s) eqn:Hi;
      [exists Inheritable; apply filter_In; rewrite in_seq; split; [lia|exact Hi]|].
    destruct (bit Permitted idx s) eqn:Hp;
      [exists Permitted; apply filter_In; rewrite in_seq; split; [lia|exact Hp]|].
    exfalso. apply Hsig. unfold signature_of. rewrite He, Hi, Hp. reflexivity.
  - intros (Hn & w & Hin). apply filter_In in Hin. destruct Hin as [Hseq Hb].
    apply in_seq in Hseq. split; [lia|]. split; [exact Hn|].
    intros E. pose proof (proj1 (signature_of_no_flags s idx) E w). congruence.
Qed.

End CoreFacts.

(** ** The codec on the demo configuration *)

Lemma demo_table_names_all (idx : nat) :
  (idx < demo_MAX_CAP)%nat -> named demo_table idx = true.
Proof.
  unfold demo_MAX_CAP. intros H.
  do 6 (destruct idx as [|idx]; [reflexivity|]). lia.
Qed.

Lemma demo_valid (e p i : N) :
  (e < 64)%N -> (p < 64)%N -> (i < 64)%N ->
  valid demo_MAX_CAP (mkCapabilitySet e p i).
Proof. intros He Hp Hi w. destruct w; assumption. Qed.

Lemma decode_encode_witness :
  table_ok demo_table = true /\
  valid demo_MAX_CAP (mkCapabilitySet 63 42 7) /\
  decode demo_MAX_CAP demo_table
         (encode demo_MAX_CAP demo_table (mkCapabilitySet 63 42 7))
  = Ok (mkCapabilitySet 63 42 7).
Proof.
  assert (Hv : valid demo_MAX_CAP (mkCapabilitySet 63 42 7))
    by (apply demo_valid; reflexivity).
  split; [reflexivity|]. split; [exact Hv|].
  apply (decode_encode demo_MAX_CAP demo_table (mkCapabilitySet 63 42 7)
           eq_refl Hv).
  intros w idx Hb. apply demo_table_names_all.
  apply (valid_bits demo_MAX_CAP _ Hv w idx Hb).
Defined.

(** With capability 1 unnamed, a set holding it (here chown and
    capability 1 effective, made by two [set] calls) loses it on the way
    through the text. *)
Lemma unnamed_bit_lost :
  table_ok sparse_table = true /\
  set demo_MAX_CAP Effective 1 (snd (set demo_MAX_CAP Effective 0 empty))
  = (Ok tt, mkCapabilitySet 3 0 0) /\
  valid demo_MAX_CAP (mkCapabilitySet 3 0 0) /\
  encode demo_MAX_CAP sparse_table (mkCapabilitySet 3 0 0) = "chown=e" /\
  decode demo_MAX_CAP sparse_table
         (encode demo_MAX_CAP sparse_table (mkCapabilitySet 3 0 0))
  = Ok (mkCapabilitySet 1 0 0) /\
  decode demo_MAX_CAP sparse_table
         (encode demo_MAX_CAP sparse_table (mkCapabilitySet 3 0 0))
  <> Ok (mkCapabilitySet 3 0 0).
Proof.
  split; [reflexivity|]. split; [reflexivity|].
  split; [apply demo_valid; reflexivity|].
  split; [reflexivity|]. split; [reflexivity|].
  vm_compute. discriminate.
Qed.

Lemma flag_order_witness :
  table_ok demo_table = true /\
  In (list_ascii_of_string "chown=ep")
     (split_on " "%char
        (list_ascii_of_string (encode demo_MAX_CAP demo_table demo_set))) /\
  exists names flags,
    split_on "="%char (list_ascii_of_string "chown=ep") = [names; flags] /\
    subseq flags ["e"; "i"; "p"]%char = true.
Proof.
  assert (Hin : In (list_ascii_of_string "chown=ep")
                   (split_on " "%char
                      (list_ascii_of_string
                         (encode demo_MAX_CAP demo_table demo_set))))
    by (vm_compute; left; reflexivity).
  split; [reflexivity|]. split; [exact Hin|].
  exact (flag_order demo_MAX_CAP demo_table demo_set
           (list_ascii_of_string "chown=ep") eq_refl Hin).
Defined.

Lemma grouping_witness :
  table_ok demo_table = true /\
  split_on " "%char
    (list_ascii_of_string (encode demo_MAX_CAP demo_table demo_set2))
  = [list_ascii_of_string "chown,dac_override,fowner=ep"] /\
  NoDup (map fst (groups demo_MAX_CAP demo_table demo_set2)).
Proof.
  destruct (grouping demo_MAX_CAP demo_table demo_set2 eq_refl)
    as (Hsplit & _ & Hnodup & _).
  split; [reflexivity|]. split; [exact Hsplit|exact Hnodup].
Defined.

Lemma range_enforcement_witness :
  (demo_MAX_CAP <= 6)%nat /\
  isSet demo_MAX_CAP Permitted 6 demo_set = (Err IndexOutOfRange, demo_set) /\
  set demo_MAX_CAP Permitted 6 demo_set = (Err IndexOutOfRange, demo_set) /\
  clear demo_MAX_CAP Permitted 6 demo_set = (Err IndexOutOfRange, demo_set).
Proof.
  assert (H : (demo_MAX_CAP <= 6)%nat) by (unfold demo_MAX_CAP; lia).
  split; [exact H|].
  exact (range_enforcement demo_MAX_CAP Permitted 6 demo_set H).
Defined.

(* ================================================================== *)
(** * Further properties of [main] and [usage]                          *)
(* ================================================================== *)

(** ** Arguments as [atoi] reads them *)

Lemma list_ascii_of_string_app (a b : string) :
  list_ascii_of_string (a ++ b)
  = (list_ascii_of_string a ++ list_ascii_of_string b)%list.
Proof. induction a as [|c a IH]; simpl; [reflexivity|now rewrite IH]. Qed.

Lemma string_app_assoc (a b c : string) : (a ++ b) ++ c = a ++ (b ++ c).
Proof. induction a as [|x a IH]; simpl; [reflexivity|now rewrite IH]. Qed.

Lemma digits_no_digit (acc : Z) (l : list ascii) :
  starts_with_digit l = false -> digits acc l = acc.
Proof.
  destruct l as [|c r]; [reflexivity|]. unfold starts_with_digit, is_digit.
  simpl. destruct (digit_of c); [discriminate|reflexivity].
Qed.

Lemma digits_app (l tail : list ascii) :
  starts_with_digit tail = false ->
  forall acc, digits acc (l ++ tail) = digits acc l.
Proof.
  intros Htail. induction l as [|c l IH]; intros acc.
  - simpl. rewrite (digits_no_digit acc tail Htail). reflexivity.
  - simpl. destruct (digit_of c); [apply IH|reflexivity].
Qed.

Lemma decimal_no_number (arg : string) :
  has_number arg = false -> decimal arg = 0%Z.
Proof.
  unfold has_number, decimal.
  destruct (skip_space (list_ascii_of_string arg)) as [|c r]; [reflexivity|].
  unfold is_sign.
  destruct (Ascii.eqb_spec c "-"%char) as [->|Hm].
  - simpl. intros H. rewrite (digits_no_digit 0 r H). reflexivity.
  - destruct (Ascii.eqb_spec c "+"%char) as [->|Hp].
    + simpl. intros H. apply (digits_no_digit 0 r H).
    + simpl. intros H.
      assert (Hd : digits 0 (c :: r) = 0%Z)
        by (apply digits_no_digit; exact H).
      destruct c as [[] [] [] [] [] [] [] []]; try exact Hd; contradiction.
Qed.

Lemma decimal_app (arg tail : string) :
  no_number_start tail = true -> decimal (arg ++ tail) = decimal arg.
Proof.
  intros Htail. unfold decimal. rewrite list_ascii_of_string_app.
  unfold no_number_start in Htail.
  set (t := list_ascii_of_string tail) in *.
  assert (Hdig : starts_with_digit t = false).
  { destruct t as [|c r]; [reflexivity|]. simpl.
    apply andb_true_iff in Htail. destruct Htail as [Htail _].
    apply andb_true_iff in Htail. destruct Htail as [Htail _].
    apply negb_true_iff. exact Htail. }
  assert (Hskip : skip_space t = t).
  { destruct t as [|c r]; [reflexivity|]. simpl.
    apply andb_true_iff in Htail. destruct Htail as [Htail _].
    apply andb_true_iff in Htail. destruct Htail as [_ Htail].
    apply negb_true_iff in Htail. rewrite Htail. reflexivity. }
  assert (Hzero : decimal tail = 0%Z).
  { apply decimal_no_number. unfold has_number. fold t. rewrite Hskip.
    destruct t as [|c r]; [reflexivity|].
    apply andb_true_iff in Htail. destruct Htail as [Htail Hsign].
    apply andb_true_iff in Htail. destruct Htail as [Hd _].
    apply negb_true_iff in Hsign. apply negb_true_iff in Hd.
    rewrite Hsign. exact Hd. }
  induction (list_ascii_of_string arg) as [|c l IH].
  - exact Hzero.
  - cbn [app skip_space]. destruct (isspace c); [exact IH|].
    assert (Happ : forall acc, digits acc ((c :: l) ++ t) = digits acc (c :: l))
      by (apply digits_app; exact Hdig).
    assert (Happ' : forall acc, digits acc (l ++ t) = digits acc l)
      by (apply digits_app; exact Hdig).
    destruct c as [[] [] [] [] [] [] [] []];
      try exact (Happ 0%Z); rewrite (Happ' 0%Z); reflexivity.
Qed.

(** ** Reading back what [%d] prints *)

Ltac eval_digit :=
  match goal with
  | |- context [digit_of ?c] =>
      let v := eval vm_compute in (digit_of c) in
      change (digit_of c) with v; cbv iota beta
  end.

Lemma digits_uint_acc (u : Decimal.uint) :
  forall acc : positive,
    digits (Z.pos acc) (list_ascii_of_string (NilEmpty.string_of_uint u))
    = Z.pos (Pos.of_uint_acc u acc).
Proof.
  induction u as [|u IH|u IH|u IH|u IH|u IH|u IH|u IH|u IH|u IH|u IH];
    intros acc; [reflexivity|..];
    cbn [NilEmpty.string_of_uint list_ascii_of_string digits Pos.of_uint_acc];
    eval_digit; rewrite <- IH; f_equal; lia.
Qed.

Lemma digits_uint (u : Decimal.uint) :
  digits 0 (list_ascii_of_string (NilEmpty.string_of_uint u))
  = Z.of_N (Pos.of_uint u).
Proof.
  induction u as [|u IH|u IH|u IH|u IH|u IH|u IH|u IH|u IH|u IH|u IH];
    [reflexivity|exact IH|..];
    cbn [NilEmpty.string_of_uint list_ascii_of_string digits Pos.of_uint Z.of_N];
    eval_digit; rewrite <- digits_uint_acc; reflexivity.
Qed.

Lemma decimal_uint (u : Decimal.uint) :
  u <> Decimal.Nil ->
  decimal (NilEmpty.string_of_uint u)
  = digits 0 (list_ascii_of_string (NilEmpty.string_of_uint u)).
Proof. destruct u; intros H; [contradiction|reflexivity..]. Qed.

Lemma string_of_uint_nonnil (u : Decimal.uint) :
  u <> Decimal.Nil -> NilZero.string_of_uint u = NilEmpty.string_of_uint u.
Proof. destruct u; intros H; [contradiction|reflexivity..]. Qed.

Lemma decimal_fmt_d (n : Z) : decimal (fmt_d n) = n.
Proof.
  destruct n as [|p|p]; [reflexivity| |]; unfold fmt_d; cbn [Z.to_int NilZero.string_of_int].
  - rewrite (string_of_uint_nonnil _ (Unsigned.to_uint_nonnil p)).
    rewrite (decimal_uint _ (Unsigned.to_uint_nonnil p)), digits_uint.
    rewrite DecimalPos.Unsigned.of_to. reflexivity.
  - rewrite (string_of_uint_nonnil _ (Unsigned.to_uint_nonnil p)).
    change (decimal (String "-" (NilEmpty.string_of_uint (Pos.to_uint p))))
      with (- digits 0 (list_ascii_of_string
                          (NilEmpty.string_of_uint (Pos.to_uint p))))%Z.
    rewrite digits_uint, DecimalPos.Unsigned.of_to. reflexivity.
Qed.

(** [atoi] gives an [int]. *)
Lemma atoi_int (arg : string) : (INT_MIN <= atoi arg <= INT_MAX)%Z.
Proof.
  unfold atoi, int_of_long, INT_MIN, INT_MAX.
  pose proof (Z.mod_pos_bound (strtol arg + 2147483648) 4294967296).
  lia.
Qed.

(** A number in the range of [int] is the [int] [atoi] gives. *)
Lemma atoi_decimal (arg : string) :
  (INT_MIN <= decimal arg <= INT_MAX)%Z -> atoi arg = decimal arg.
Proof.
  unfold atoi, strtol, int_of_long, INT_MIN, INT_MAX, LONG_MIN, LONG_MAX.
  intros H.
  rewrite Z.min_r, Z.max_r by lia.
  rewrite Z.mod_small by lia. lia.
Qed.

Lemma atoi_no_number (arg : string) : has_number arg = false -> atoi arg = 0%Z.
Proof.
  intros H. unfold atoi, strtol. rewrite (decimal_no_number arg H). reflexivity.
Qed.

Lemma atoi_app (arg tail : string) :
  no_number_start tail = true -> atoi (arg ++ tail) = atoi arg.
Proof.
  intros H. unfold atoi, strtol. rewrite (decimal_app arg tail H). reflexivity.
Qed.

(** The pid a failure report shows with [%d], read by [atoi], is the
    pid itself: so for every [int], and so for the pid made of any
    argument. *)
Theorem pid_reads_back :
  (forall n : Z, (INT_MIN <= n <= INT_MAX)%Z -> atoi (fmt_d n) = n) /\
  (forall arg : string, atoi (fmt_d (atoi arg)) = atoi arg).
Proof.
  assert (H : forall n : Z, (INT_MIN <= n <= INT_MAX)%Z -> atoi (fmt_d n) = n).
  { intros n Hn. rewrite atoi_decimal; rewrite decimal_fmt_d; [reflexivity|exact Hn]. }
  split; [exact H|].
  intros arg. apply H, atoi_int.
Qed.

(** ** Texts of the program *)

Lemma rendered_sets_app {T} (a b : list (event T)) :
  rendered_sets (a ++ b) = (rendered_sets a ++ rendered_sets b)%list.
Proof. apply flat_map_app. Qed.

Section MoreGetpcapsFacts.

Variable cap_struct : Type.
Variable cap_init : Z -> option cap_struct * Z.
Variable capgetp : Z -> cap_struct -> Z -> Z * cap_struct * Z.
Variable cap_to_text : cap_struct -> string.
Variable strerror : Z -> string.

Local Abbreviation main := (main cap_struct cap_init capgetp cap_to_text strerror).
Local Abbreviation query_log := (query_log cap_struct capgetp).
Local Abbreviation report := (report cap_struct cap_to_text strerror).
Local Abbreviation events_of := (events_of cap_struct cap_to_text strerror).
Local Abbreviation query_record := (query_record cap_struct).
Local Abbreviation blank_failed_text := (blank_failed_text strerror).
Local Abbreviation query_failed_text := (query_failed_text strerror).

Lemma usage_text_newline : newline_terminated usage_text.
Proof.
  unfold newline_terminated, usage_text. eexists.
  rewrite <- !string_app_assoc. reflexivity.
Qed.

Lemma blank_failed_text_newline (errno : Z) :
  newline_terminated (blank_failed_text errno).
Proof.
  unfold newline_terminated, blank_failed_text. eexists.
  rewrite <- !string_app_assoc. reflexivity.
Qed.

Lemma report_newline (q : query_record) : newline_terminated (report q).
Proof.
  unfold newline_terminated, report.
  destruct (q_ret q =? 0)%Z; eexists.
  - unfold capabilities_text. rewrite <- !string_app_assoc. reflexivity.
  - unfold query_failed_text. rewrite <- !string_app_assoc. reflexivity.
Qed.

Lemma report_not_usage (q : query_record) : report q <> usage_text.
Proof.
  intros E. apply (f_equal first_char) in E. revert E.
  unfold report. destruct (q_ret q =? 0)%Z; discriminate.
Qed.

Lemma blank_failed_not_usage (errno : Z) : blank_failed_text errno <> usage_text.
Proof. intros E. apply (f_equal first_char) in E. discriminate E. Qed.

Lemma rendered_sets_log (l : list query_record) :
  rendered_sets (flat_map events_of l)
  = map q_after (filter (fun q => (q_ret q =? 0)%Z) l).
Proof.
  induction l as [|q l IH]; cbn [flat_map filter]; [reflexivity|].
  rewrite rendered_sets_app, IH. unfold events_of.
  destruct (q_ret q =? 0)%Z; reflexivity.
Qed.

Lemma query_log_length (args : list string) (c : cap_struct) (errno : Z) :
  List.length (query_log args c errno) = List.length args.
Proof.
  rewrite <- (query_log_args cap_struct capgetp args c errno) at 2.
  now rewrite length_map.
Qed.

(** The queries for further arguments come after those for the first
    ones, which are as they would be alone. *)
Lemma query_log_app (args more : list string) :
  forall c errno,
  exists c' errno',
    query_log (args ++ more) c errno
    = (query_log args c errno ++ query_log more c' errno')%list.
Proof.
  induction args as [|arg rest IH]; intros c errno.
  - exists c, errno. reflexivity.
  - cbn [app query_log].
    destruct (capgetp (atoi arg) c errno) as [[ret c1] errno1].
    destruct (IH c1 errno1) as (c' & errno' & ->).
    exists c', errno'. reflexivity.
Qed.

(** ** The usage banner *)

(** The usage text is written exactly when no pid argument is given;
    the run then ends with status 1 on that one text, without any call
    into libcap. *)
Theorem usage_exactly_without_pid (argv : list string) :
  (In usage_text (written Stderr (snd (main argv)))
   <-> (List.length argv < 2)%nat) /\
  ((List.length argv < 2)%nat ->
   exit_status (main argv) = 1%Z /\
   written Stderr (snd (main argv)) = [usage_text] /\
   cap_init_calls (snd (main argv)) = 0%nat /\
   queried_pids (snd (main argv)) = [] /\
   rendered_sets (snd (main argv)) = []).
Proof.
  split.
  - split.
    + intros Hin.
      destruct (Nat.lt_ge_cases (List.length argv) 2) as [Hlt|Hge]; [exact Hlt|].
      exfalso. destruct (cap_init 0%Z) as [[c|] errno] eqn:Hinit.
      * rewrite (main_log _ cap_init capgetp cap_to_text strerror
                   argv c errno Hge Hinit) in Hin.
        cbn [snd] in Hin.
        change (In usage_text
                   (written Stderr (flat_map events_of
                                      (query_log (tl argv) c errno)))) in Hin.
        rewrite written_stderr_log in Hin.
        apply in_map_iff in Hin. destruct Hin as (q & Hq & _).
        exact (report_not_usage q Hq).
      * rewrite (main_null _ cap_init capgetp cap_to_text strerror
                   argv errno Hge Hinit) in Hin.
        destruct Hin as [E|[]]. exact (blank_failed_not_usage errno E).
    + intros Hlt.
      rewrite (main_usage _ cap_init capgetp cap_to_text strerror argv Hlt).
      left. reflexivity.
  - intros Hlt.
    rewrite (main_usage _ cap_init capgetp cap_to_text strerror argv Hlt).
    repeat split.
Qed.

(** ** No blank set *)

(** When [cap_init] returns NULL the run ends at the first argument:
    status 1, the one message about the blank set with the [errno]
    [cap_init] left, and no query or rendering for any argument,
    however many there are. *)
Theorem no_query_without_set (argv : list string) (errno : Z) :
  (2 <= List.length argv)%nat ->
  cap_init 0%Z = (None, errno) ->
  exit_status (main argv) = 1%Z /\
  written Stderr (snd (main argv)) = [blank_failed_text errno] /\
  cap_init_calls (snd (main argv)) = 1%nat /\
  queried_pids (snd (main argv)) = [] /\
  rendered_sets (snd (main argv)) = [].
Proof.
  intros Hge Hinit.
  rewrite (main_null _ cap_init capgetp cap_to_text strerror argv errno Hge Hinit).
  repeat split.
Qed.

(** ** One report per argument *)

(** With a blank set at hand, and whatever [capgetp] answers, a run
    makes as many queries and as many [fprintf] calls as there are
    arguments after the program name: one report text for each. *)
Theorem one_report_per_argument (argv : list string) (c : cap_struct) (errno : Z) :
  (2 <= List.length argv)%nat ->
  cap_init 0%Z = (Some c, errno) ->
  List.length (queried_pids (snd (main argv))) = (List.length argv - 1)%nat /\
  List.length (written Stderr (snd (main argv))) = (List.length argv - 1)%nat.
Proof.
  intros Hge Hinit.
  rewrite (main_log _ cap_init capgetp cap_to_text strerror argv c errno Hge Hinit).
  cbn [snd].
  change (List.length (queried_pids (flat_map events_of (query_log (tl argv) c errno)))
          = (List.length argv - 1)%nat /\
          List.length (written Stderr (flat_map events_of (query_log (tl argv) c errno)))
          = (List.length argv - 1)%nat).
  rewrite queried_pids_log, written_stderr_log, !length_map, query_log_length.
  destruct argv as [|prog args]; simpl in *; lia.
Qed.

(** ** Rendering only what a query filled *)

(** [cap_to_text] is called exactly for the queries that returned 0, in
    order, each time on the set as that query left it; after a failed
    query it is not called. *)
Theorem rendered_after_success (argv : list string) (c : cap_struct) (errno : Z) :
  (2 <= List.length argv)%nat ->
  cap_init 0%Z = (Some c, errno) ->
  rendered_sets (snd (main argv))
  = map q_after (filter (fun q => (q_ret q =? 0)%Z) (query_log (tl argv) c errno)) /\
  ((forall q, In q (query_log (tl argv) c errno) -> q_ret q <> 0%Z) ->
   rendered_sets (snd (main argv)) = []).
Proof.
  intros Hge Hinit.
  rewrite (main_log _ cap_init capgetp cap_to_text strerror argv c errno Hge Hinit).
  cbn [snd].
  change (rendered_sets (Call_cap_init :: flat_map events_of (query_log (tl argv) c errno)))
    with (rendered_sets (flat_map events_of (query_log (tl argv) c errno))).
  rewrite rendered_sets_log. split; [reflexivity|].
  intros Hfail.
  induction (query_log (tl argv) c errno) as [|q l IH]; [reflexivity|].
  cbn [filter].
  destruct (Z.eqb_spec (q_ret q) 0) as [E|_].
  - exfalso. apply (Hfail q); [left; reflexivity|exact E].
  - apply IH. intros q' Hq'. apply Hfail. right. exact Hq'.
Qed.

(** ** Further arguments *)

(** Giving further arguments leaves the status and everything done for
    the arguments before them as it is: the events of the longer run
    start with the events of the shorter one. *)
Theorem earlier_reports_unchanged (argv more : list string) :
  (2 <= List.length argv)%nat ->
  exit_status (main (argv ++ more)) = exit_status (main argv) /\
  exists evs,
    snd (main (argv ++ more)) = (snd (main argv) ++ evs)%list /\
    written Stderr (snd (main (argv ++ more)))
    = (written Stderr (snd (main argv)) ++ written Stderr evs)%list.
Proof.
  intros Hge.
  assert (Hge' : (2 <= List.length (argv ++ more))%nat)
    by (rewrite length_app; lia).
  assert (Htl : tl (argv ++ more) = (tl argv ++ more)%list)
    by (destruct argv; [simpl in Hge; lia|reflexivity]).
  destruct (cap_init 0%Z) as [[c|] errno] eqn:Hinit.
  - rewrite (main_log _ cap_init capgetp cap_to_text strerror _ c errno Hge' Hinit).
    rewrite (main_log _ cap_init capgetp cap_to_text strerror _ c errno Hge Hinit).
    rewrite Htl.
    destruct (query_log_app (tl argv) more c errno) as (c' & errno' & ->).
    split; [reflexivity|].
    exists (flat_map events_of (query_log more c' errno')).
    cbn [snd]. rewrite flat_map_app. split; [reflexivity|].
    rewrite app_comm_cons. apply written_app.
  - rewrite (main_null _ cap_init capgetp cap_to_text strerror _ errno Hge' Hinit).
    rewrite (main_null _ cap_init capgetp cap_to_text strerror _ errno Hge Hinit).
    split; [reflexivity|]. exists []. split; reflexivity.
Qed.

(** ** How arguments become pids *)

(** An argument that shows no digit after its leading white space and
    optional sign (an empty one, a name, a bare sign) is not turned
    down: it is queried as pid 0. *)
Theorem no_number_queries_pid_0
        (argv : list string) (c : cap_struct) (errno : Z) (k : nat) (arg : string) :
  (2 <= List.length argv)%nat ->
  cap_init 0%Z = (Some c, errno) ->
  nth_error (tl argv) k = Some arg ->
  has_number arg = false ->
  nth_error (queried_pids (snd (main argv))) k = Some 0%Z.
Proof.
  intros Hge Hinit Hk Hnum.
  rewrite (main_log _ cap_init capgetp cap_to_text strerror argv c errno Hge Hinit).
  cbn [snd].
  change (nth_error (queried_pids (flat_map events_of (query_log (tl argv) c errno))) k
          = Some 0%Z).
  rewrite queried_pids_log, query_log_pids, nth_error_map, Hk.
  cbn [option_map]. rewrite (atoi_no_number arg Hnum). reflexivity.
Qed.

(** Text after the number is not looked at: arguments that differ only
    by a tail which cannot continue or start a number are queried as
    the same pids. *)
Theorem trailing_text_ignored
        (prog : string) (args : list string) (tail : string)
        (c : cap_struct) (errno : Z) :
  args <> [] ->
  cap_init 0%Z = (Some c, errno) ->
  no_number_start tail = true ->
  queried_pids (snd (main (prog :: map (fun arg => arg ++ tail) args)))
  = queried_pids (snd (main (prog :: args))).
Proof.
  intros Hne Hinit Htail.
  assert (Hge : (2 <= List.length (prog :: args))%nat)
    by (destruct args; [contradiction|simpl; lia]).
  assert (Hge' : (2 <= List.length (prog :: map (fun arg => arg ++ tail) args))%nat)
    by (simpl; rewrite length_map; simpl in Hge; lia).
  rewrite (main_log _ cap_init capgetp cap_to_text strerror _ c errno Hge' Hinit).
  rewrite (main_log _ cap_init capgetp cap_to_text strerror _ c errno Hge Hinit).
  cbn [snd tl].
  change (queried_pids (flat_map events_of
                          (query_log (map (fun arg => arg ++ tail) args) c errno))
          = queried_pids (flat_map events_of (query_log args c errno))).
  rewrite !queried_pids_log, !query_log_pids, map_map.
  apply map_ext. intros arg. apply atoi_app. exact Htail.
Qed.

(** ** Lines *)

(** Whatever the arguments and the answers of libcap, every text the
    program writes ends with a newline. *)
Theorem reports_newline_terminated (argv : list string) (text : string) :
  In text (written Stderr (snd (main argv))) -> newline_terminated text.
Proof.
  intros Hin.
  destruct (Nat.lt_ge_cases (List.length argv) 2) as [Hlt|Hge].
  - rewrite (main_usage _ cap_init capgetp cap_to_text strerror argv Hlt) in Hin.
    destruct Hin as [<-|[]]. apply usage_text_newline.
  - destruct (cap_init 0%Z) as [[c|] errno] eqn:Hinit.
    + rewrite (main_log _ cap_init capgetp cap_to_text strerror
                 argv c errno Hge Hinit) in Hin.
      cbn [snd] in Hin.
      change (In text (written Stderr (flat_map events_of
                                         (query_log (tl argv) c errno)))) in Hin.
      rewrite written_stderr_log in Hin.
      apply in_map_iff in Hin. destruct Hin as (q & <- & _).
      apply report_newline.
    + rewrite (main_null _ cap_init capgetp cap_to_text strerror
                 argv errno Hge Hinit) in Hin.
      destruct Hin as [<-|[]]. apply blank_failed_text_newline.
Qed.

End MoreGetpcapsFacts.

(** ** The further properties on the demo configuration *)

Lemma usage_exactly_without_pid_witness :
  (List.length ["getpcaps"] < 2)%nat /\
  In usage_text (written Stderr (snd (demo_main ["getpcaps"]))) /\
  exit_status (demo_main ["getpcaps"]) = 1%Z /\
  cap_init_calls (snd (demo_main ["getpcaps"])) = 0%nat.
Proof.
  assert (Hlt : (List.length ["getpcaps"] < 2)%nat) by (simpl; lia).
  destruct (usage_exactly_without_pid CapabilitySet demo_cap_init
              (capgetp_of demo_query) (encode demo_MAX_CAP demo_table)
              demo_strerror ["getpcaps"]) as [Hiff Hrun].
  destruct (Hrun Hlt) as (Hst & _ & Hinit & _).
  split; [exact Hlt|]. split; [exact (proj2 Hiff Hlt)|].
  split; [exact Hst|exact Hinit].
Defined.

Lemma no_query_without_set_witness :
  (2 <= List.length ["getpcaps"; "1"; "3"])%nat /\
  failing_cap_init 0%Z = (None, 12%Z) /\
  exit_status (demo_main_no_set ["getpcaps"; "1"; "3"]) = 1%Z /\
  written Stderr (snd (demo_main_no_set ["getpcaps"; "1"; "3"]))
  = ["Failed to make a blank capability set" ++ nl ++
     " (Cannot allocate memory)" ++ nl] /\
  cap_init_calls (snd (demo_main_no_set ["getpcaps"; "1"; "3"])) = 1%nat /\
  queried_pids (snd (demo_main_no_set ["getpcaps"; "1"; "3"])) = [] /\
  rendered_sets (snd (demo_main_no_set ["getpcaps"; "1"; "3"])) = [].
Proof.
  assert (Hge : (2 <= List.length ["getpcaps"; "1"; "3"])%nat) by (simpl; lia).
  split; [exact Hge|]. split; [reflexivity|].
  exact (no_query_without_set CapabilitySet failing_cap_init
           (capgetp_of demo_query) (encode demo_MAX_CAP demo_table)
           demo_strerror ["getpcaps"; "1"; "3"] 12%Z Hge eq_refl).
Defined.

Lemma one_report_per_argument_witness :
  (2 <= List.length ["getpcaps"; "1"; "2"; "3"])%nat /\
  demo_cap_init 0%Z = (Some empty, 0%Z) /\
  List.length (queried_pids (snd (demo_main ["getpcaps"; "1"; "2"; "3"]))) = 3%nat /\
  List.length (written Stderr (snd (demo_main ["getpcaps"; "1"; "2"; "3"]))) = 3%nat.
Proof.
  assert (Hge : (2 <= List.length ["getpcaps"; "1"; "2"; "3"])%nat) by (simpl; lia).
  split; [exact Hge|]. split; [reflexivity|].
  exact (one_report_per_argument CapabilitySet demo_cap_init
           (capgetp_of demo_query) (encode demo_MAX_CAP demo_table)
           demo_strerror ["getpcaps"; "1"; "2"; "3"] empty 0%Z Hge eq_refl).
Defined.

Lemma rendered_after_success_witness :
  (2 <= List.length ["getpcaps"; "1"; "2"; "3"])%nat /\
  demo_cap_init 0%Z = (Some empty, 0%Z) /\
  rendered_sets (snd (demo_main ["getpcaps"; "1"; "2"; "3"]))
  = [demo_set; demo_set2] /\
  rendered_sets (snd (demo_main ["getpcaps"; "2"; "7"])) = [].
Proof.
  assert (Hge : (2 <= List.length ["getpcaps"; "1"; "2"; "3"])%nat) by (simpl; lia).
  assert (Hge' : (2 <= List.length ["getpcaps"; "2"; "7"])%nat) by (simpl; lia).
  split; [exact Hge|]. split; [reflexivity|]. split.
  - exact (proj1 (rendered_after_success CapabilitySet demo_cap_init
                    (capgetp_of demo_query) (encode demo_MAX_CAP demo_table)
                    demo_strerror ["getpcaps"; "1"; "2"; "3"] empty 0%Z
                    Hge eq_refl)).
  - apply (proj2 (rendered_after_success CapabilitySet demo_cap_init
                    (capgetp_of demo_query) (encode demo_MAX_CAP demo_table)
                    demo_strerror ["getpcaps"; "2"; "7"] empty 0%Z
                    Hge' eq_refl)).
    intros q Hq. vm_compute in Hq.
    destruct Hq as [<-|[<-|[]]]; discriminate.
Defined.

Lemma earlier_reports_unchanged_witness :
  (2 <= List.length ["getpcaps"; "1"])%nat /\
  exit_status (demo_main (["getpcaps"; "1"] ++ ["2"; "3"]))
  = exit_status (demo_main ["getpcaps"; "1"]) /\
  exists evs,
    snd (demo_main (["getpcaps"; "1"] ++ ["2"; "3"]))
    = (snd (demo_main ["getpcaps"; "1"]) ++ evs)%list /\
    written Stderr (snd (demo_main (["getpcaps"; "1"] ++ ["2"; "3"])))
    = (written Stderr (snd (demo_main ["getpcaps"; "1"])) ++ written Stderr evs)%list.
Proof.
  assert (Hge : (2 <= List.length ["getpcaps"; "1"])%nat) by (simpl; lia).
  split; [exact Hge|].
  exact (earlier_reports_unchanged CapabilitySet demo_cap_init
           (capgetp_of demo_query) (encode demo_MAX_CAP demo_table)
           demo_strerror ["getpcaps"; "1"] ["2"; "3"] Hge).
Defined.

Lemma no_number_queries_pid_0_witness :
  (2 <= List.length ["getpcaps"; "1"; "init"])%nat /\
  demo_cap_init 0%Z = (Some empty, 0%Z) /\
  nth_error (tl ["getpcaps"; "1"; "init"]) 1 = Some "init" /\
  has_number "init" = false /\
  nth_error (queried_pids (snd (demo_main ["getpcaps"; "1"; "init"]))) 1
  = Some 0%Z.
Proof.
  assert (Hge : (2 <= List.length ["getpcaps"; "1"; "init"])%nat) by (simpl; lia).
  split; [exact Hge|]. split; [reflexivity|]. split; [reflexivity|].
  split; [reflexivity|].
  exact (no_number_queries_pid_0 CapabilitySet demo_cap_init
           (capgetp_of demo_query) (encode demo_MAX_CAP demo_table)
           demo_strerror ["getpcaps"; "1"; "init"] empty 0%Z 1%nat "init"
           Hge eq_refl eq_refl eq_refl).
Defined.

Lemma trailing_text_ignored_witness :
  ["1"; "3"] <> [] /\
  demo_cap_init 0%Z = (Some empty, 0%Z) /\
  no_number_start "abc" = true /\
  queried_pids (snd (demo_main ("getpcaps" :: map (fun arg => arg ++ "abc") ["1"; "3"])))
  = queried_pids (snd (demo_main ["getpcaps"; "1"; "3"])).
Proof.
  assert (Hne : ["1"; "3"] <> []) by discriminate.
  split; [exact Hne|]. split; [reflexivity|]. split; [reflexivity|].
  exact (trailing_text_ignored CapabilitySet demo_cap_init
           (capgetp_of demo_query) (encode demo_MAX_CAP demo_table)
           demo_strerror "getpcaps" ["1"; "3"] "abc" empty 0%Z
           Hne eq_refl eq_refl).
Defined.

Lemma reports_newline_terminated_witness :
  In ("Failed to get cap's for proccess 2: (No such process)" ++ nl)
     (written Stderr (snd (demo_main ["getpcaps"; "2"]))) /\
  newline_terminated ("Failed to get cap's for proccess 2: (No such process)" ++ nl).
Proof.
  assert (Hin : In ("Failed to get cap's for proccess 2: (No such process)" ++ nl)
                   (written Stderr (snd (demo_main ["getpcaps"; "2"]))))
    by (vm_compute; left; reflexivity).
  split; [exact Hin|].
  exact (reports_newline_terminated CapabilitySet demo_cap_init
           (capgetp_of demo_query) (encode demo_MAX_CAP demo_table)
           demo_strerror ["getpcaps"; "2"] _ Hin).
Defined.

Lemma pid_reads_back_witness :
  (INT_MIN <= -2147483648 <= INT_MAX)%Z /\
  atoi (fmt_d (-2147483648)) = (-2147483648)%Z /\
  atoi (fmt_d (atoi "4294967297")) = atoi "4294967297".
Proof.
  assert (H : (INT_MIN <= -2147483648 <= INT_MAX)%Z)
    by (unfold INT_MIN, INT_MAX; lia).
  split; [exact H|].
  split; [exact (proj1 pid_reads_back _ H)|exact (proj2 pid_reads_back _)].
Defined.
